(** * Python-stepper_motor: the position and motion model of [stepper_motor.py]

    A shallow embedding of class [StepperMotor] and the properties of its
    position bookkeeping, absolute positioning and pulse timing.

    - Python [int] is [Z]; Python [float] is IEEE 754 binary64, taken from
      the Standard Library's executable specification [SpecFloat]
      ([prec = 53], [emax = 1024]); a Python number is one or the other.
    - An exception is a value of [exn]; a method is a function from the
      state before the call to an outcome and the state after it, so what
      a method did before it raised stays visible.
    - [RPi.GPIO] and [time] are outside the repository. [GPIO.output] is
      only called on the three pins with the two level constants: a call is
      recorded in a trace and returns. [time.sleep] is called on a computed
      duration and checks it: which durations it refuses is a parameter
      ([Clock]); a refused call raises [time_sleep_error], an accepted one is
      recorded in the trace. [GPIO.setmode] and [GPIO.setup] are called by
      [__init__] alone and are listed apart. *)

From Stdlib Require Import ZArith Bool String List Lia.
From Stdlib Require Import Floats.SpecFloat.
Import ListNotations.
Local Open Scope Z_scope.

(** ** Exceptions and results *)

(** The exceptions of the methods, and [time_sleep_error secs] for
    whatever [time.sleep] raises on a duration [secs] it refuses. *)
Inductive exn : Type :=
| ValueError (msg : string)
| IndexError (msg : string)
| AttributeError (msg : string)
| ZeroDivisionError
| OverflowError
| time_sleep_error (secs : spec_float).

Inductive result (A : Type) : Type :=
| Ok (a : A)
| Error (e : exn).
Arguments Ok {A} a.
Arguments Error {A} e.

Definition result_bind {A B} (r : result A) (k : A -> result B) : result B :=
  match r with
  | Ok a => k a
  | Error e => Error e
  end.

(** ** Python numbers *)

(** The binary64 format. A Python float is a [spec_float] in canonical
    form ([valid_binary prec emax]); every operation below returns such a
    float on such floats, and is defined on all of [spec_float]. *)
Definition prec : Z := 53.
Definition emax : Z := 1024.

(** What [rpm], [max_rpm] and [degree] can be: an int or a float. *)
Inductive number : Type :=
| Int (z : Z)
| Float (f : spec_float).

Definition is_zero (f : spec_float) : bool :=
  match f with
  | S754_zero _ => true
  | _ => false
  end.

(** [float(z)] for an int operand of a mixed operation: rounded to nearest
    even, [OverflowError] when the int is too large for a float. *)
Definition float_of_int (z : Z) : result spec_float :=
  match binary_normalize prec emax z 0 false with
  | S754_infinity _ => Error OverflowError
  | f => Ok f
  end.

(** An int as an (unrounded) mantissa with exponent 0. *)
Definition raw_of_int (z : Z) : spec_float :=
  match z with
  | Z0 => S754_zero false
  | Zpos p => S754_finite false p 0
  | Zneg p => S754_finite true p 0
  end.

(** [a / b] on two ints: the exact quotient rounded once to nearest even. *)
Definition int_truediv (a b : Z) : result spec_float :=
  if b =? 0 then Error ZeroDivisionError
  else match SFdiv prec emax (raw_of_int a) (raw_of_int b) with
       | S754_infinity _ => Error OverflowError
       | f => Ok f
       end.

(** [x / y] on two floats. *)
Definition float_truediv (x y : spec_float) : result spec_float :=
  if is_zero y then Error ZeroDivisionError
  else Ok (SFdiv prec emax x y).

(** Python's true division [x / y]. *)
Definition truediv (x y : number) : result spec_float :=
  match x, y with
  | Int a, Int b => int_truediv a b
  | Int a, Float g =>
      result_bind (float_of_int a) (fun f => float_truediv f g)
  | Float f, Int b =>
      result_bind (float_of_int b) (fun g => float_truediv f g)
  | Float f, Float g => float_truediv f g
  end.

(** [int(f)]: truncation toward zero. *)
Definition int_of_float (f : spec_float) : result Z :=
  match f with
  | S754_nan => Error (ValueError "cannot convert float NaN to integer")
  | S754_infinity _ => Error OverflowError
  | S754_zero _ => Ok 0
  | S754_finite s m e =>
      let q := match e with
               | Zneg k => Zpos m / 2 ^ Zpos k
               | _ => Zpos m * 2 ^ e
               end in
      Ok (if s then - q else q)
  end.

(** Comparison of an int with a float is exact in Python. *)
Definition compare_int_float (z : Z) (f : spec_float) : option comparison :=
  match f with
  | S754_nan => None
  | S754_infinity s => Some (if s then Gt else Lt)
  | S754_zero _ => Some (z ?= 0)
  | S754_finite s m e =>
      let v := if s then Zneg m else Zpos m in
      Some (match e with
            | Zneg k => z * 2 ^ Zpos k ?= v
            | _ => z ?= v * 2 ^ e
            end)
  end.

(** The order of two numbers, [None] when one of them is NaN. *)
Definition num_compare (x y : number) : option comparison :=
  match x, y with
  | Int a, Int b => Some (a ?= b)
  | Int a, Float g => compare_int_float a g
  | Float f, Int b => option_map CompOpp (compare_int_float b f)
  | Float f, Float g => SFcompare f g
  end.

(** [x < y], [x > y], [x <= y], [x == y] and [x != y]: every comparison
    with NaN is false, except [!=]. *)
Definition num_lt (x y : number) : bool :=
  match num_compare x y with Some Lt => true | _ => false end.
Definition num_gt (x y : number) : bool :=
  match num_compare x y with Some Gt => true | _ => false end.
Definition num_le (x y : number) : bool :=
  match num_compare x y with Some (Lt | Eq) => true | _ => false end.
Definition num_eq (x y : number) : bool :=
  match num_compare x y with Some Eq => true | _ => false end.
Definition num_ne (x y : number) : bool := negb (num_eq x y).

(** The sign bit of a float; NaN has none here. *)
Definition signbit (f : spec_float) : option bool :=
  match f with
  | S754_nan => None
  | S754_zero s | S754_infinity s | S754_finite s _ _ => Some s
  end.

(** The sign of a number that is neither zero nor NaN: [true] is minus. *)
Definition num_sign (x : number) : option bool :=
  match x with
  | Int Z0 => None
  | Int (Zpos _) => Some false
  | Int (Zneg _) => Some true
  | Float (S754_finite s _ _) | Float (S754_infinity s) => Some s
  | Float _ => None
  end.


(** ** The motor object and the outside world *)

Inductive pin : Type := enable_pin | direction_pin | pulse_pin.
Inductive level : Type := LOW | HIGH.

Inductive event : Type :=
| GPIO_output (p : pin) (l : level)
| time_sleep (secs : spec_float).

(** The clock behind [time.sleep]: the durations it raises on. *)
Class Clock : Type := { sleep_rejects : spec_float -> bool }.

(** The fields of [self] that the methods read or write after [__init__]. *)
Record StepperMotor : Type := mkMotor {
  steps_per_revolution : Z;
  max_rpm : option number;
  hold_position : bool;
  steps_from_home : option Z
}.

Definition set_steps_from_home (self : StepperMotor) (v : option Z) : StepperMotor :=
  mkMotor (steps_per_revolution self) (max_rpm self) (hold_position self) v.

Record state : Type := mkState {
  motor : StepperMotor;
  trace : list event
}.

(** ** Methods: state and exceptions *)

Inductive outcome (A : Type) : Type :=
| Return (a : A)
| Raise (e : exn).
Arguments Return {A} a.
Arguments Raise {A} e.

Definition M (A : Type) : Type := state -> outcome A * state.

Definition ret {A} (a : A) : M A := fun st => (Return a, st).
Definition raise {A} (e : exn) : M A := fun st => (Raise e, st).
Definition bind {A B} (c : M A) (k : A -> M B) : M B :=
  fun st => match c st with
            | (Return a, st') => k a st'
            | (Raise e, st') => (Raise e, st')
            end.
Definition lift {A} (r : result A) : M A :=
  match r with
  | Ok a => ret a
  | Error e => raise e
  end.
Definition get_self : M StepperMotor := fun st => (Return (motor st), st).
Definition modify_self (f : StepperMotor -> StepperMotor) : M unit :=
  fun st => (Return tt, mkState (f (motor st)) (trace st)).
Definition emit (e : event) : M unit :=
  fun st => (Return tt, mkState (motor st) (trace st ++ [e])).

(** [time.sleep(secs)]. *)
Definition sleep {clock : Clock} (secs : spec_float) : M unit :=
  if sleep_rejects secs then raise (time_sleep_error secs)
  else emit (time_sleep secs).

Notation "x <- c ;; k" := (bind c (fun x => k))
  (at level 61, c at next level, right associativity).
Notation "c ;;; k" := (bind c (fun _ => k))
  (at level 61, right associativity).

(** [for i in range(n): body]; [range] of a non-positive int is empty. *)
Fixpoint for_range_nat (n : nat) (body : M unit) : M unit :=
  match n with
  | O => ret tt
  | S n' => body ;;; for_range_nat n' body
  end.
Definition for_range (n : Z) (body : M unit) : M unit :=
  for_range_nat (Z.to_nat n) body.

(** ** [stepper_motor.py] *)

Definition SpeedExceeded : exn :=
  ValueError "Desired rpm is higher than max_rpm".
Definition PositionUnknown : exn :=
  AttributeError "Cannot go to position if home position has not been set -> self.steps_from home is set to None.".
Definition NoTarget : exn :=
  ValueError "No argument for steps_relative_to_home or degree was given.".
Definition BothTargets : exn :=
  ValueError "Only specify steps_relative_to_home or degree. Not both at the same time.".
Definition DegreeOutOfRange : exn :=
  IndexError "Value for degree has to be between 0 and 360.".
Definition NotAStepMultiple : exn :=
  ValueError "Value given for degree is not a multiple of the motors step angle.".
Definition StepsOutOfRange : exn :=
  IndexError "Value given for steps_relative_to_home exceeds self.steps_per_revolution.".

(** [calculate_delay_from_rpm]: reads [self.steps_per_revolution] only. *)
Definition calculate_delay_from_rpm (self : StepperMotor) (rpm : number)
  : result spec_float :=
  result_bind (truediv (Int 60) rpm) (fun time_per_revolution =>
  truediv (Float time_per_revolution) (Int (steps_per_revolution self * 2))).

Definition set_current_position_as_home : M unit :=
  modify_self (fun self => set_steps_from_home self (Some 0)).

(** [update_position]: one step of bookkeeping on [self]. *)
Definition update_position_self (turn_clockwise : bool) (self : StepperMotor)
  : StepperMotor :=
  match steps_from_home self with
  | None => self
  | Some p =>
      if turn_clockwise then
        let p1 := p + 1 in
        if p1 =? steps_per_revolution self
        then set_steps_from_home self (Some 0)
        else set_steps_from_home self (Some p1)
      else
        let p0 := if p =? 0 then steps_per_revolution self else p in
        set_steps_from_home self (Some (p0 - 1))
  end.

Definition update_position (turn_clockwise : bool) : M unit :=
  modify_self (update_position_self turn_clockwise).

(** The body of the loop of [step]: one pulse, then the bookkeeping. *)
Definition pulse {clock : Clock}
    (delay_in_seconds : spec_float) (turn_clockwise : bool) : M unit :=
  emit (GPIO_output pulse_pin HIGH) ;;;
  sleep delay_in_seconds ;;;
  emit (GPIO_output pulse_pin LOW) ;;;
  sleep delay_in_seconds ;;;
  update_position turn_clockwise.

Definition step {clock : Clock}
    (steps : Z) (turn_clockwise : bool) (rpm : number) : M unit :=
  self <- get_self ;;
  match max_rpm self with
  | Some limit => if num_gt rpm limit then raise SpeedExceeded else ret tt
  | None => ret tt
  end ;;;
  (if turn_clockwise
   then emit (GPIO_output direction_pin HIGH)
   else emit (GPIO_output direction_pin LOW)) ;;;
  emit (GPIO_output enable_pin LOW) ;;;
  delay_in_seconds <- lift (calculate_delay_from_rpm self rpm) ;;
  for_range steps (pulse delay_in_seconds turn_clockwise) ;;;
  if negb (hold_position self)
  then emit (GPIO_output enable_pin HIGH)
  else ret tt.

Definition do_one_rotation {clock : Clock}
    (turn_clockwise : bool) (rpm : number) : M unit :=
  self <- get_self ;;
  step (steps_per_revolution self) turn_clockwise rpm.

Definition rotate {clock : Clock}
    (rotations : Z) (turn_clockwise : bool) (rpm : number) : M unit :=
  self <- get_self ;;
  step (rotations * steps_per_revolution self) turn_clockwise rpm.

(** The block under [if degree != None:] of [go_to_position]: the range
    check, the multiple-of-the-step-angle check and the conversion. *)
Definition steps_of_degree (self : StepperMotor) (degree : number) : result Z :=
  if num_lt degree (Int 0) || num_gt degree (Int 360) then Error DegreeOutOfRange
  else
    result_bind (truediv (Int 360) (Int (steps_per_revolution self)))
      (fun step_angle =>
    result_bind (truediv degree (Float step_angle)) (fun q =>
    result_bind (int_of_float q) (fun i =>
    if num_ne (Float q) (Int i) then Error NotAStepMultiple
    else Ok i))).

Definition go_to_position {clock : Clock}
    (turn_clockwise : bool) (rpm : number)
    (steps_relative_to_home : option Z) (degree : option number) : M unit :=
  self <- get_self ;;
  match steps_from_home self with
  | None => raise PositionUnknown
  | Some current =>
    (* from [if steps_relative_to_home == self.steps_from_home:] to the end *)
    let move (steps_relative_to_home : Z) : M unit :=
      if steps_relative_to_home =? current then ret tt
      else if (steps_relative_to_home <? 0)
              || (steps_relative_to_home >? steps_per_revolution self - 1)
      then raise StepsOutOfRange
      else if turn_clockwise then
        if steps_relative_to_home >? current
        then step (steps_relative_to_home - current) true rpm
        else step (steps_per_revolution self - current + steps_relative_to_home)
                  true rpm
      else
        if steps_relative_to_home >? current
        then step (current + (steps_per_revolution self - steps_relative_to_home))
                  false rpm
        else step (current - steps_relative_to_home) false rpm in
    match steps_relative_to_home, degree with
    | None, None => raise NoTarget
    | Some _, Some _ => raise BothTargets
    | None, Some d =>
        target <- lift (steps_of_degree self d) ;;
        move target
    | Some target, None => move target
    end
  end.

(** ** Observations on states and traces *)

Definition run {A} (c : M A) (st : state) : outcome A * state := c st.

Definition position (st : state) : option Z := steps_from_home (motor st).

Definition is_pulse (e : event) : bool :=
  match e with
  | GPIO_output pulse_pin HIGH => true
  | _ => false
  end.

(** The number of pulses on a trace: rising edges of the pulse line. *)
Definition pulses (tr : list event) : Z :=
  Z.of_nat (length (filter is_pulse tr)).

(** Home is set and the position is inside the revolution. *)
Definition home_in_range (self : StepperMotor) : Prop :=
  exists p, steps_from_home self = Some p /\ 0 <= p < steps_per_revolution self.

(** [step] gets past its speed check and its timing computation. *)
Definition timing_computed (self : StepperMotor) (rpm : number) : bool :=
  match max_rpm self with
  | Some limit => negb (num_gt rpm limit)
  | None => true
  end
  && match calculate_delay_from_rpm self rpm with
     | Ok _ => true
     | Error _ => false
     end.

(** Moreover [time.sleep] takes the delay computed: [step] runs to its
    end whatever the number of steps. *)
Definition speed_accepted {clock : Clock}
    (self : StepperMotor) (rpm : number) : bool :=
  match max_rpm self with
  | Some limit => negb (num_gt rpm limit)
  | None => true
  end
  && match calculate_delay_from_rpm self rpm with
     | Ok d => negb (sleep_rejects d)
     | Error _ => false
     end.

(** What one pulse writes on the trace. *)
Definition pulse_events (d : spec_float) : list event :=
  [GPIO_output pulse_pin HIGH; time_sleep d; GPIO_output pulse_pin LOW; time_sleep d].

(** [n] calls of [update_position] in one direction. *)
Fixpoint update_times (n : nat) (turn_clockwise : bool) (self : StepperMotor)
  : StepperMotor :=
  match n with
  | O => self
  | S n' => update_times n' turn_clockwise (update_position_self turn_clockwise self)
  end.

(** The states seen before and after each call of a sequence of
    [update_position] calls, one direction per call. *)
Fixpoint observations (dirs : list bool) (st : state) : list state :=
  match dirs with
  | [] => [st]
  | d :: dirs' => st :: observations dirs' (snd (run (update_position d) st))
  end.

(** What [step] writes on the trace when it runs to its end. *)
Definition step_events (self : StepperMotor) (steps : Z) (turn_clockwise : bool)
    (d : spec_float) : list event :=
  [GPIO_output direction_pin (if turn_clockwise then HIGH else LOW);
   GPIO_output enable_pin LOW]
  ++ concat (repeat (pulse_events d) (Z.to_nat steps))
  ++ (if hold_position self then [] else [GPIO_output enable_pin HIGH]).

(** The pulse count the specification gives for an absolute move, to be
    compared with the one [go_to_position] hands to [step]. *)
Definition distance (n current target : Z) (turn_clockwise : bool) : Z :=
  if turn_clockwise then
    if target >? current then target - current else n - current + target
  else
    if target >? current then current + (n - target) else current - target.

(** A clock that refuses a negative duration and NaN, as CPython's
    [time.sleep] does (CPython's limit on the length of a sleep is left
    out). *)
Definition python_sleep_rejects (secs : spec_float) : bool :=
  match secs with
  | S754_nan => true
  | _ => SFltb secs (S754_zero false)
  end.

Definition python_clock : Clock := {| sleep_rejects := python_sleep_rejects |}.

(** The motor of [example.py], with home marked. *)
Definition example_motor : StepperMotor :=
  mkMotor 200 (Some (Int 630)) true (Some 0).

Definition example_state : state := mkState example_motor [].

(** ** The constructor, the caller and programs of method calls *)

(** The calls of [__init__] that configure the GPIO. *)
Inductive setup_call : Type :=
| GPIO_setmode_BCM
| GPIO_setup_OUT (p : pin).

(** [__init__]: the configuration calls, then the object and the first
    write of the enable line. The three pin numbers it is given name the
    three lines, which the model calls by their role: they are taken to be
    three different numbers. *)
Definition __init__ (steps_per_revolution : Z) (max_rpm : option number)
    (hold_position : bool) : list setup_call * state :=
  ([GPIO_setmode_BCM; GPIO_setup_OUT enable_pin; GPIO_setup_OUT direction_pin;
    GPIO_setup_OUT pulse_pin],
   mkState (mkMotor steps_per_revolution max_rpm hold_position None)
           [GPIO_output enable_pin (if hold_position then LOW else HIGH)]).

(** [main] of [example.py]. *)
Definition main {clock : Clock} : outcome unit * state :=
  let stepper_motor := snd (__init__ 200 (Some (Int 630)) true) in
  run (step 1000 true (Int 60)) stepper_motor.

(** A call of one of the methods that act on the object. *)
Inductive method_call : Type :=
| call_step (steps : Z) (turn_clockwise : bool) (rpm : number)
| call_do_one_rotation (turn_clockwise : bool) (rpm : number)
| call_rotate (rotations : Z) (turn_clockwise : bool) (rpm : number)
| call_set_current_position_as_home
| call_update_position (turn_clockwise : bool)
| call_go_to_position (turn_clockwise : bool) (rpm : number)
    (steps_relative_to_home : option Z) (degree : option number).

Definition call {clock : Clock} (c : method_call) : M unit :=
  match c with
  | call_step steps cw rpm => step steps cw rpm
  | call_do_one_rotation cw rpm => do_one_rotation cw rpm
  | call_rotate rotations cw rpm => rotate rotations cw rpm
  | call_set_current_position_as_home => set_current_position_as_home
  | call_update_position cw => update_position cw
  | call_go_to_position cw rpm srh degree => go_to_position cw rpm srh degree
  end.

(** The states seen before and after each call of a program of method
    calls, by a caller that goes on after an exception. *)
Fixpoint run_calls {clock : Clock} (cs : list method_call) (st : state)
  : list state :=
  match cs with
  | [] => [st]
  | c :: cs' => st :: run_calls cs' (snd (run (call c) st))
  end.

Definition is_set_home (c : method_call) : bool :=
  match c with
  | call_set_current_position_as_home => true
  | _ => false
  end.

(** What an event does to the level of the enable line. *)
Definition enable_write (acc : option level) (e : event) : option level :=
  match e with
  | GPIO_output enable_pin l => Some l
  | _ => acc
  end.

(** The level last written on the enable line. *)
Definition last_enable (tr : list event) : option level :=
  fold_left enable_write tr None.

(** The object is as [__init__] configured it, and its position is unset
    or inside the revolution. *)
Definition well_formed (n : Z) (limit : option number) (hold : bool)
    (self : StepperMotor) : Prop :=
  steps_per_revolution self = n
  /\ max_rpm self = limit
  /\ hold_position self = hold
  /\ (steps_from_home self = None \/ home_in_range self).

(** The step index a call of [go_to_position] is about: the one given, or
    the one its angle converts to. *)
Definition resolves (self : StepperMotor) (steps_relative_to_home : option Z)
    (degree : option number) (target : Z) : Prop :=
  (steps_relative_to_home = Some target /\ degree = None)
  \/ (steps_relative_to_home = None
      /\ exists d, degree = Some d /\ steps_of_degree self d = Ok target).

(** The enable line is as the object wants it when idle. *)
Definition idle_enable (st : state) : Prop :=
  last_enable (trace st)
  = Some (if hold_position (motor st) then LOW else HIGH).

(** The exceptions the methods raise on checking their arguments and the
    object, with the one [int()] raises on NaN. What [time.sleep] raises
    is [time_sleep_error], whatever its Python class, and is not among
    them. *)
Definition is_check_error (e : exn) : bool :=
  match e with
  | ValueError _ | IndexError _ | AttributeError _ => true
  | _ => false
  end.

(** The two methods that write the position without moving the motor. *)
Definition is_bookkeeping (c : method_call) : bool :=
  match c with
  | call_set_current_position_as_home | call_update_position _ => true
  | _ => false
  end.

(** The pulses of a trace counted with the direction they were sent in:
    one up for a pulse while the direction line is HIGH, one down while it
    is LOW. A pulse before the first write of the direction line, which no
    method sends, counts down. *)
Definition count_signed (acc : level * Z) (e : event) : level * Z :=
  match e with
  | GPIO_output direction_pin l => (l, snd acc)
  | GPIO_output pulse_pin HIGH =>
      (fst acc, match fst acc with
                | HIGH => snd acc + 1
                | LOW => snd acc - 1
                end)
  | _ => acc
  end.

Definition signed_pulses (tr : list event) : Z :=
  snd (fold_left count_signed tr (LOW, 0)).

(** Every way [step] can end. *)
Inductive step_end {clock : Clock} (st : state) (steps : Z) (cw : bool) (rpm : number)
  : outcome unit * state -> Prop :=
| step_refused limit :
    max_rpm (motor st) = Some limit -> num_gt rpm limit = true ->
    step_end st steps cw rpm (Raise SpeedExceeded, st)
| step_no_delay e :
    (forall limit, max_rpm (motor st) = Some limit -> num_gt rpm limit = false) ->
    calculate_delay_from_rpm (motor st) rpm = Error e ->
    (e = ZeroDivisionError \/ e = OverflowError) ->
    step_end st steps cw rpm
      (Raise e,
       mkState (motor st)
         (trace st ++ [GPIO_output direction_pin (if cw then HIGH else LOW);
                       GPIO_output enable_pin LOW]))
| step_no_sleep d :
    (forall limit, max_rpm (motor st) = Some limit -> num_gt rpm limit = false) ->
    calculate_delay_from_rpm (motor st) rpm = Ok d ->
    0 < steps -> sleep_rejects d = true ->
    step_end st steps cw rpm
      (Raise (time_sleep_error d),
       mkState (motor st)
         (trace st ++ [GPIO_output direction_pin (if cw then HIGH else LOW);
                       GPIO_output enable_pin LOW;
                       GPIO_output pulse_pin HIGH]))
| step_done d :
    (forall limit, max_rpm (motor st) = Some limit -> num_gt rpm limit = false) ->
    calculate_delay_from_rpm (motor st) rpm = Ok d ->
    steps <= 0 \/ sleep_rejects d = false ->
    step_end st steps cw rpm
      (Return tt,
       mkState (update_times (Z.to_nat steps) cw (motor st))
               (trace st ++ step_events (motor st) steps cw d)).

(** Every way [go_to_position] can end. *)
Inductive go_to_position_end {clock : Clock} (st : state) (cw : bool) (rpm : number)
    (srh : option Z) (degree : option number) : outcome unit * state -> Prop :=
| go_unknown :
    position st = None ->
    go_to_position_end st cw rpm srh degree (Raise PositionUnknown, st)
| go_no_target current :
    position st = Some current -> srh = None -> degree = None ->
    go_to_position_end st cw rpm srh degree (Raise NoTarget, st)
| go_both_targets current t d :
    position st = Some current -> srh = Some t -> degree = Some d ->
    go_to_position_end st cw rpm srh degree (Raise BothTargets, st)
| go_bad_degree current d e :
    position st = Some current -> srh = None -> degree = Some d ->
    steps_of_degree (motor st) d = Error e ->
    go_to_position_end st cw rpm srh degree (Raise e, st)
| go_already_there current :
    position st = Some current ->
    resolves (motor st) srh degree current ->
    go_to_position_end st cw rpm srh degree (Return tt, st)
| go_out_of_range current target :
    position st = Some current ->
    resolves (motor st) srh degree target ->
    target <> current ->
    target < 0 \/ steps_per_revolution (motor st) - 1 < target ->
    go_to_position_end st cw rpm srh degree (Raise StepsOutOfRange, st)
| go_move current target :
    position st = Some current ->
    resolves (motor st) srh degree target ->
    target <> current ->
    0 <= target <= steps_per_revolution (motor st) - 1 ->
    go_to_position_end st cw rpm srh degree
      (run (step (distance (steps_per_revolution (motor st)) current target cw)
                 cw rpm) st).

(** ** Binary64 rounding: sign, overflow and underflow *)

(** The exponent of a binary64 number of magnitude [2 ^ x]. *)
Lemma fexp_eq (x : Z) : fexp prec emax x = Z.max (x - 53) (-1074).
Proof. reflexivity. Qed.

(** The number of bits of a mantissa. *)
Lemma digits2_pos_log2 (p : positive) :
  Zpos (digits2_pos p) = Z.log2 (Zpos p) + 1.
Proof.
  induction p as [p IH|p IH|]; cbn [digits2_pos].
  - rewrite Pos2Z.inj_succ, IH. cbn [Z.log2]. destruct p; simpl; lia.
  - rewrite Pos2Z.inj_succ, IH. cbn [Z.log2]. destruct p; simpl; lia.
  - reflexivity.
Qed.

Lemma Zdigits2_bounds (m : Z) :
  0 < m -> 2 ^ (Zdigits2 m - 1) <= m < 2 ^ Zdigits2 m.
Proof.
  destruct m as [|p|p]; try lia. intros _. cbn [Zdigits2].
  rewrite digits2_pos_log2.
  pose proof (Z.log2_spec (Zpos p) eq_refl).
  replace (Z.log2 (Zpos p) + 1 - 1) with (Z.log2 (Zpos p)) by lia.
  replace (Z.log2 (Zpos p) + 1) with (Z.succ (Z.log2 (Zpos p))) by lia. lia.
Qed.

Lemma Zdigits2_nonneg (m : Z) : 0 <= Zdigits2 m.
Proof. destruct m; simpl; lia. Qed.

Lemma Zdigits2_pos (m : Z) : 0 < m -> 1 <= Zdigits2 m.
Proof. destruct m; simpl; lia. Qed.

Lemma Zdigits2_le (m : Z) (k : Z) : 0 <= k -> 0 <= m < 2 ^ k -> Zdigits2 m <= k.
Proof.
  intros Hk [H0 H1]. destruct (Z.eq_dec m 0) as [->|Hm]; [simpl; lia|].
  pose proof (Zdigits2_bounds m ltac:(lia)) as [Hl _].
  destruct (Z_le_gt_dec (Zdigits2 m) k) as [|Hgt]; [assumption|exfalso].
  assert (2 ^ k <= 2 ^ (Zdigits2 m - 1)) by (apply Z.pow_le_mono_r; lia).
  lia.
Qed.

Lemma Zdigits2_ge (m : Z) (k : Z) : 0 <= k -> 2 ^ k <= m -> k + 1 <= Zdigits2 m.
Proof.
  intros Hk H.
  assert (0 < m) by (pose proof (Z.pow_pos_nonneg 2 k); lia).
  pose proof (Zdigits2_bounds m ltac:(lia)) as [_ Hu].
  destruct (Z_le_gt_dec (k + 1) (Zdigits2 m)) as [|Hgt]; [assumption|exfalso].
  pose proof (Zdigits2_nonneg m).
  assert (2 ^ Zdigits2 m <= 2 ^ k) by (apply Z.pow_le_mono_r; lia).
  lia.
Qed.

(** Shifting a mantissa right is dividing it by a power of two. *)
Lemma shr_1_m (mrs : shr_record) :
  0 <= shr_m mrs -> shr_m (shr_1 mrs) = shr_m mrs / 2.
Proof.
  destruct mrs as [m r s]. cbn [shr_m]. intros Hm.
  destruct m as [|[p|p|]|p]; cbn [shr_1 shr_m]; try lia; try reflexivity.
  - rewrite Pos2Z.inj_xI. symmetry.
    replace (2 * Zpos p + 1) with (1 + Zpos p * 2) by lia.
    rewrite Z.div_add by lia. reflexivity.
  - rewrite Pos2Z.inj_xO. symmetry.
    replace (2 * Zpos p) with (0 + Zpos p * 2) by lia.
    rewrite Z.div_add by lia. reflexivity.
Qed.

Lemma iter_pos_shr_1_m (p : positive) :
  forall mrs, 0 <= shr_m mrs ->
  shr_m (iter_pos shr_1 p mrs) = shr_m mrs / 2 ^ Zpos p.
Proof.
  assert (Hnn : forall mrs, 0 <= shr_m mrs -> 0 <= shr_m (shr_1 mrs)).
  { intros mrs H. rewrite shr_1_m by assumption. apply Z.div_pos; lia. }
  induction p as [p IH|p IH|]; intros mrs Hm; cbn [iter_pos].
  - assert (Hpow : 0 < 2 ^ Zpos p) by (apply Z.pow_pos_nonneg; lia).
    assert (H1 : 0 <= shr_m (iter_pos shr_1 p (shr_1 mrs))).
    { rewrite IH by auto. apply Z.div_pos; auto. }
    rewrite IH, IH, shr_1_m by auto.
    rewrite !Z.div_div by lia.
    f_equal.
    assert (E : Zpos p~1 = 1 + Zpos p + Zpos p) by lia. rewrite E.
    rewrite !Z.pow_add_r by lia. lia.
  - assert (Hpow : 0 < 2 ^ Zpos p) by (apply Z.pow_pos_nonneg; lia).
    assert (H1 : 0 <= shr_m (iter_pos shr_1 p mrs)).
    { rewrite IH by auto. apply Z.div_pos; auto. }
    rewrite IH, IH by auto.
    rewrite Z.div_div by lia.
    f_equal.
    assert (E : Zpos p~0 = Zpos p + Zpos p) by lia. rewrite E.
    rewrite Z.pow_add_r by lia. lia.
  - rewrite shr_1_m by assumption. reflexivity.
Qed.

(** What [shr_fexp] returns: the mantissa and the exponent. *)
Lemma shr_fexp_spec (m e : Z) (l : location) :
  0 <= m ->
  let n := Z.max 0 (fexp prec emax (Zdigits2 m + e) - e) in
  shr_m (fst (shr_fexp prec emax m e l)) = m / 2 ^ n
  /\ snd (shr_fexp prec emax m e l) = e + n.
Proof.
  intros Hm n. unfold shr_fexp, shr.
  assert (Hrec : shr_m (shr_record_of_loc m l) = m).
  { destruct l as [|[]]; reflexivity. }
  subst n. destruct (fexp prec emax (Zdigits2 m + e) - e) as [|p|p] eqn:E; cbn [fst snd].
  - rewrite Hrec. simpl. rewrite Z.div_1_r. lia.
  - rewrite iter_pos_shr_1_m by (rewrite Hrec; assumption).
    rewrite Hrec. rewrite Z.max_r by lia. split; reflexivity.
  - rewrite Hrec. simpl. rewrite Z.div_1_r. lia.
Qed.

Lemma round_nearest_even_bounds (m : Z) (l : location) :
  m <= round_nearest_even m l <= m + 1.
Proof.
  unfold round_nearest_even. destruct l as [|[]]; try lia.
  destruct (Z.even m); lia.
Qed.

Lemma binary_round_aux_spec (s : bool) (mx ex : Z) (lx : location) :
  0 <= mx ->
  let n1 := Z.max 0 (fexp prec emax (Zdigits2 mx + ex) - ex) in
  let e1 := ex + n1 in
  exists m1,
    mx / 2 ^ n1 <= m1 <= mx / 2 ^ n1 + 1
    /\ let n2 := Z.max 0 (fexp prec emax (Zdigits2 m1 + e1) - e1) in
       let e2 := e1 + n2 in
       binary_round_aux prec emax s mx ex lx
       = match m1 / 2 ^ n2 with
         | Z0 => S754_zero s
         | Zpos m => if e2 <=? 971 then S754_finite s m e2 else S754_infinity s
         | Zneg _ => S754_nan
         end.
Proof.
  intros Hm n1 e1. unfold binary_round_aux.
  destruct (shr_fexp_spec mx ex lx Hm) as [Hm1 He1].
  destruct (shr_fexp prec emax mx ex lx) as [mrs' e'] eqn:E1.
  cbn [fst snd] in Hm1, He1. fold n1 in Hm1, He1. fold e1 in He1. subst e'.
  set (m1 := round_nearest_even (shr_m mrs') (loc_of_shr_record mrs')).
  pose proof (round_nearest_even_bounds (shr_m mrs') (loc_of_shr_record mrs')) as Hr.
  fold m1 in Hr. rewrite Hm1 in Hr.
  assert (H0 : 0 <= mx / 2 ^ n1).
  { apply Z.div_pos; [assumption|]. apply Z.pow_pos_nonneg; unfold n1; lia. }
  exists m1. split; [exact Hr|]. cbv zeta.
  destruct (shr_fexp_spec m1 e1 loc_Exact ltac:(lia)) as [Hm2 He2].
  destruct (shr_fexp prec emax m1 e1 loc_Exact) as [mrs'' e''] eqn:E2.
  cbn [fst snd] in Hm2, He2. rewrite Hm2, He2. reflexivity.
Qed.

Lemma div_pow2_lt (m d n : Z) :
  0 <= n -> 0 <= d -> 0 <= m < 2 ^ d -> m / 2 ^ n < 2 ^ Z.max 0 (d - n).
Proof.
  intros Hn Hd Hm.
  assert (Hp : 0 < 2 ^ n) by (apply Z.pow_pos_nonneg; lia).
  apply Z.div_lt_upper_bound; [assumption|].
  rewrite <- Z.pow_add_r by lia.
  assert (2 ^ d <= 2 ^ (n + Z.max 0 (d - n))) by (apply Z.pow_le_mono_r; lia).
  lia.
Qed.

Lemma div_pow2_pos (m n : Z) :
  0 < m -> 0 <= n < Zdigits2 m -> 1 <= m / 2 ^ n.
Proof.
  intros Hm Hn.
  assert (Hp : 0 < 2 ^ n) by (apply Z.pow_pos_nonneg; lia).
  apply Z.div_le_lower_bound; [assumption|].
  pose proof (Zdigits2_bounds m Hm) as [Hl _].
  assert (2 ^ n <= 2 ^ (Zdigits2 m - 1)) by (apply Z.pow_le_mono_r; lia).
  lia.
Qed.

(** The sign is the one given; a mantissa that is not negative never
    rounds to NaN. *)
Lemma binary_round_aux_signbit (s : bool) (mx ex : Z) (lx : location) :
  0 <= mx -> signbit (binary_round_aux prec emax s mx ex lx) = Some s.
Proof.
  intros Hm.
  destruct (binary_round_aux_spec s mx ex lx Hm) as (m1 & Hm1 & ->).
  set (n1 := Z.max 0 (fexp prec emax (Zdigits2 mx + ex) - ex)) in *.
  set (e1 := ex + n1) in *.
  set (n2 := Z.max 0 (fexp prec emax (Zdigits2 m1 + e1) - e1)).
  assert (0 <= mx / 2 ^ n1).
  { apply Z.div_pos; [assumption|]. apply Z.pow_pos_nonneg; unfold n1; lia. }
  assert (0 <= m1 / 2 ^ n2).
  { apply Z.div_pos; [lia|]. apply Z.pow_pos_nonneg; unfold n2; lia. }
  destruct (m1 / 2 ^ n2); try lia; [reflexivity|].
  destruct (_ <=? 971); reflexivity.
Qed.

(** No overflow below [2 ^ 1023]. *)
Lemma binary_round_aux_finite (s : bool) (mx ex : Z) (lx : location) :
  0 <= mx -> ex <= 971 -> Zdigits2 mx + ex <= 1023 ->
  forall s', binary_round_aux prec emax s mx ex lx <> S754_infinity s'.
Proof.
  intros Hm Hex Hd s'.
  destruct (binary_round_aux_spec s mx ex lx Hm) as (m1 & Hm1 & ->).
  set (n1 := Z.max 0 (fexp prec emax (Zdigits2 mx + ex) - ex)) in *.
  set (e1 := ex + n1) in *.
  set (n2 := Z.max 0 (fexp prec emax (Zdigits2 m1 + e1) - e1)).
  pose proof (Zdigits2_nonneg mx) as Hd0.
  assert (Hn1 : 0 <= n1) by (unfold n1; lia).
  assert (Hq : 0 <= mx / 2 ^ n1 < 2 ^ Z.max 0 (Zdigits2 mx - n1)).
  { split.
    - apply Z.div_pos; [assumption|]. apply Z.pow_pos_nonneg; lia.
    - apply div_pow2_lt; try lia.
      destruct (Z.eq_dec mx 0) as [->|]; [simpl; lia|].
      pose proof (Zdigits2_bounds mx ltac:(lia)). lia. }
  assert (Hd1 : Zdigits2 m1 <= Z.max 0 (Zdigits2 mx - n1) + 1).
  { apply Zdigits2_le; [lia|]. rewrite Z.pow_add_r by lia. lia. }
  assert (He2 : e1 + n2 <= 971).
  { unfold n2. rewrite fexp_eq. unfold e1, n1 in *. rewrite fexp_eq in *. lia. }
  destruct (m1 / 2 ^ n2); try discriminate.
  destruct (Z.leb_spec (e1 + n2) 971); [discriminate|lia].
Qed.

(** No underflow to zero from [2 ^ (-1074)] on. *)
Lemma binary_round_aux_nonzero (s : bool) (mx ex : Z) (lx : location) :
  0 < mx -> -1074 < Zdigits2 mx + ex ->
  forall s', binary_round_aux prec emax s mx ex lx <> S754_zero s'.
Proof.
  intros Hm Hd s'.
  destruct (binary_round_aux_spec s mx ex lx ltac:(lia)) as (m1 & Hm1 & ->).
  set (n1 := Z.max 0 (fexp prec emax (Zdigits2 mx + ex) - ex)) in *.
  set (e1 := ex + n1) in *.
  set (n2 := Z.max 0 (fexp prec emax (Zdigits2 m1 + e1) - e1)).
  pose proof (Zdigits2_pos mx Hm) as Hd0.
  assert (Hq : 1 <= mx / 2 ^ n1).
  { apply div_pow2_pos; [assumption|]. unfold n1. rewrite fexp_eq. lia. }
  pose proof (Zdigits2_pos m1 ltac:(lia)) as Hd1.
  assert (Hq2 : 1 <= m1 / 2 ^ n2).
  { apply div_pow2_pos; [lia|]. unfold n2, e1, n1. rewrite !fexp_eq. lia. }
  destruct (m1 / 2 ^ n2); try lia; try discriminate.
  destruct (_ <=? 971); discriminate.
Qed.

Lemma Zdigits2_mul_pow2 (m k : Z) :
  0 < m -> 0 <= k -> Zdigits2 (m * 2 ^ k) = Zdigits2 m + k.
Proof.
  intros Hm Hk.
  pose proof (Zdigits2_bounds m Hm) as [Hl Hu].
  pose proof (Zdigits2_pos m Hm) as Hd.
  assert (Hp : 0 < 2 ^ k) by (apply Z.pow_pos_nonneg; lia).
  apply Z.le_antisymm.
  - apply Zdigits2_le; [lia|]. rewrite Z.pow_add_r by lia. nia.
  - replace (Zdigits2 m + k) with (Zdigits2 m - 1 + k + 1) by lia.
    apply Zdigits2_ge; [lia|]. rewrite Z.pow_add_r by lia. nia.
Qed.

Lemma iter_xO_pow2 (m d : positive) :
  Zpos (Pos.iter xO m d) = Zpos m * 2 ^ Zpos d.
Proof.
  induction d as [|d IH] using Pos.peano_ind.
  - simpl. lia.
  - rewrite Pos.iter_succ, Pos2Z.inj_xO, IH, Pos2Z.inj_succ, Z.pow_succ_r by lia.
    lia.
Qed.

(** [shl_align] keeps the value and never raises the exponent. *)
Lemma shl_align_spec (mx : positive) (ex ex' : Z) :
  let '(mz, ez) := shl_align mx ex ex' in
  ez <= ex /\ Zpos mz = Zpos mx * 2 ^ (ex - ez).
Proof.
  unfold shl_align. destruct (ex' - ex) as [|d|d] eqn:E.
  - rewrite Z.sub_diag. simpl. lia.
  - rewrite Z.sub_diag. simpl. lia.
  - split; [lia|]. rewrite iter_xO_pow2. f_equal. f_equal. lia.
Qed.

(** A positive int below [2 ^ 1023] converts to a positive finite float. *)
Lemma float_of_int_pos (z : Z) :
  0 < z < 2 ^ 1023 ->
  exists m e, float_of_int z = Ok (S754_finite false m e).
Proof.
  intros [Hz Hu]. destruct z as [|p|p]; try lia.
  unfold float_of_int. cbn [binary_normalize]. unfold binary_round.
  pose proof (shl_align_spec p 0 (fexp prec emax (Zpos (digits2_pos p) + 0))) as Hs.
  destruct (shl_align p 0 (fexp prec emax (Zpos (digits2_pos p) + 0))) as [mz ez].
  destruct Hs as [He Hm].
  assert (Hd : Zdigits2 (Zpos mz) + ez = Zdigits2 (Zpos p)).
  { rewrite Hm, Zdigits2_mul_pow2 by lia. lia. }
  assert (Hd' : Zdigits2 (Zpos p) <= 1023) by (apply Zdigits2_le; lia).
  pose proof (Zdigits2_pos (Zpos p) eq_refl) as Hd0.
  pose proof (binary_round_aux_signbit false (Zpos mz) ez loc_Exact ltac:(lia)) as H1.
  pose proof (binary_round_aux_finite false (Zpos mz) ez loc_Exact
                ltac:(lia) ltac:(lia) ltac:(lia)) as H2.
  pose proof (binary_round_aux_nonzero false (Zpos mz) ez loc_Exact
                ltac:(lia) ltac:(lia)) as H3.
  destruct (binary_round_aux prec emax false (Zpos mz) ez loc_Exact) as [s|s| |s m e].
  - exfalso. apply (H3 s). reflexivity.
  - exfalso. apply (H2 s). reflexivity.
  - discriminate.
  - injection H1 as ->. eauto.
Qed.

(** The quotient the division hands to the rounding. *)
Lemma SFdiv_core_binary_spec (p1 p2 : positive) (e1 e2 : Z) :
  exists q e' l,
    SFdiv_core_binary prec emax (Zpos p1) e1 (Zpos p2) e2 = (q, e', l)
    /\ 0 <= q
    /\ e' <= e1 - e2
    /\ Zdigits2 q + e' <= Zdigits2 (Zpos p1) + (e1 - e2).
Proof.
  unfold SFdiv_core_binary.
  set (e' := Z.min (fexp prec emax (Zdigits2 (Zpos p1) + e1 - (Zdigits2 (Zpos p2) + e2)))
                   (e1 - e2)).
  set (s := e1 - e2 - e').
  assert (Hs : 0 <= s) by (unfold s, e'; lia).
  set (m' := match s with
             | Z0 => Zpos p1
             | Zpos _ => Z.shiftl (Zpos p1) s
             | Zneg _ => 0
             end).
  assert (Hm' : m' = Zpos p1 * 2 ^ s).
  { unfold m'. destruct s as [|k|k] eqn:Es; try lia.
    rewrite Z.shiftl_mul_pow2 by lia. reflexivity. }
  assert (Hq : Z.div_eucl m' (Zpos p2) = (m' / Zpos p2, m' mod Zpos p2)).
  { unfold Z.div, Z.modulo. destruct (Z.div_eucl m' (Zpos p2)); reflexivity. }
  rewrite Hq.
  assert (Hp : 0 < 2 ^ s) by (apply Z.pow_pos_nonneg; lia).
  assert (H0 : 0 <= m' / Zpos p2) by (apply Z.div_pos; lia).
  assert (Hle : m' / Zpos p2 <= m').
  { apply Z.div_le_upper_bound; [lia|]. nia. }
  exists (m' / Zpos p2), e', (new_location (Zpos p2) (m' mod Zpos p2)).
  split; [reflexivity|]. split; [assumption|]. split; [unfold e'; lia|].
  assert (Hd : Zdigits2 (m' / Zpos p2) <= Zdigits2 (Zpos p1) + s).
  { pose proof (Zdigits2_pos (Zpos p1) eq_refl).
    apply Zdigits2_le; [lia|]. split; [assumption|].
    pose proof (Zdigits2_bounds (Zpos p1) eq_refl) as [_ Hu].
    rewrite Z.pow_add_r by lia. nia. }
  unfold s in Hd. lia.
Qed.

(** The sign of a quotient, when the quotient is not NaN. *)
Lemma SFdiv_signbit (x y : spec_float) (sx sy : bool) :
  signbit x = Some sx -> signbit y = Some sy ->
  match x, y with
  | S754_zero _, S754_zero _ | S754_infinity _, S754_infinity _ => False
  | _, _ => True
  end ->
  signbit (SFdiv prec emax x y) = Some (xorb sx sy).
Proof.
  destruct x as [s1|s1| |s1 m1 e1], y as [s2|s2| |s2 m2 e2];
    cbn [signbit]; intros Hx Hy Hnan;
    try discriminate; try contradiction;
    injection Hx as <-; injection Hy as <-; try reflexivity.
  cbn [SFdiv].
  destruct (SFdiv_core_binary_spec m1 m2 e1 e2) as (q & e' & l & -> & Hq & _).
  apply binary_round_aux_signbit. assumption.
Qed.

(** An int quotient with a numerator below [2 ^ 1023] does not overflow. *)
Lemma int_truediv_ok (a b : Z) :
  b <> 0 -> Z.abs a < 2 ^ 1023 ->
  exists f, int_truediv a b = Ok f
            /\ signbit f = Some (xorb (a <? 0) (b <? 0)).
Proof.
  intros Hb Ha. unfold int_truediv.
  destruct (Z.eqb_spec b 0) as [|_]; [contradiction|].
  assert (Hsig : signbit (SFdiv prec emax (raw_of_int a) (raw_of_int b))
                 = Some (xorb (a <? 0) (b <? 0))).
  { apply SFdiv_signbit.
    - destruct a; reflexivity.
    - destruct b; reflexivity.
    - destruct a, b; simpl; auto. }
  assert (Hfin : forall s, SFdiv prec emax (raw_of_int a) (raw_of_int b)
                           <> S754_infinity s).
  { intros s. destruct a as [|pa|pa], b as [|pb|pb]; try contradiction;
      cbn [raw_of_int SFdiv]; try discriminate.
    all: destruct (SFdiv_core_binary_spec pa pb 0 0) as (q & e' & l & -> & Hq & He & Hd).
    all: apply binary_round_aux_finite; try lia.
    all: assert (Zdigits2 (Zpos pa) <= 1023) by (apply Zdigits2_le; lia); lia. }
  destruct (SFdiv prec emax (raw_of_int a) (raw_of_int b)) as [s|s| |s m e] eqn:E.
  - eauto.
  - exfalso. apply (Hfin s). reflexivity.
  - discriminate.
  - eauto.
Qed.

Lemma compare_zero_finite (s : bool) (m : positive) (e : Z) :
  compare_int_float 0 (S754_finite s m e) = Some (if s then Gt else Lt).
Proof.
  cbn [compare_int_float]. f_equal.
  destruct e as [|k|k].
  - destruct s; reflexivity.
  - assert (0 < 2 ^ Zpos k) by (apply Z.pow_pos_nonneg; lia).
    destruct s; [apply Z.compare_gt_iff|apply Z.compare_lt_iff]; nia.
  - destruct s; reflexivity.
Qed.

Lemma gt_zero_sign (x : number) : num_gt x (Int 0) = true -> num_sign x = Some false.
Proof.
  unfold num_gt. destruct x as [z|f]; cbn [num_compare].
  - destruct z; simpl; congruence.
  - destruct f as [s|s| |s m e]; try rewrite compare_zero_finite;
      cbn [compare_int_float option_map num_sign]; try discriminate.
    + destruct s; simpl; congruence.
    + destruct s; simpl; congruence.
Qed.

Lemma lt_zero_sign (x : number) : num_lt x (Int 0) = true -> num_sign x = Some true.
Proof.
  unfold num_lt. destruct x as [z|f]; cbn [num_compare].
  - destruct z; simpl; congruence.
  - destruct f as [s|s| |s m e]; try rewrite compare_zero_finite;
      cbn [compare_int_float option_map num_sign]; try discriminate.
    + destruct s; simpl; congruence.
    + destruct s; simpl; congruence.
Qed.

Lemma eq_zero_cases (x : number) :
  num_eq x (Int 0) = true -> x = Int 0 \/ exists s, x = Float (S754_zero s).
Proof.
  unfold num_eq. destruct x as [z|f]; cbn [num_compare].
  - destruct z; simpl; try discriminate. auto.
  - destruct f as [s|s| |s m e]; try rewrite compare_zero_finite;
      cbn [compare_int_float option_map].
    + eauto.
    + destruct s; discriminate.
    + discriminate.
    + destruct s; discriminate.
Qed.

(** [60 / rpm] for an rpm that is neither zero nor NaN. *)
Lemma sixty_over_rpm (rpm : number) (s : bool) :
  num_sign rpm = Some s ->
  exists t, truediv (Int 60) rpm = Ok t /\ signbit t = Some s.
Proof.
  intros Hs. destruct rpm as [z|f]; cbn [truediv].
  - destruct (int_truediv_ok 60 z) as (t & Ht & Hsig).
    + destruct z; simpl in Hs; congruence.
    + simpl. lia.
    + exists t. split; [assumption|]. rewrite Hsig.
      destruct z; cbn [num_sign] in Hs; try discriminate; rewrite <- Hs; reflexivity.
  - change (float_of_int 60) with (Ok (S754_finite false 8444249301319680 (-47))).
    cbn [result_bind]. unfold float_truediv.
    destruct f as [s'|s'| |s' m e]; simpl in Hs; try discriminate;
      injection Hs as ->; cbn [is_zero].
    + eexists. split; [reflexivity|]. reflexivity.
    + eexists. split; [reflexivity|].
      apply (SFdiv_signbit _ _ false s); [reflexivity|reflexivity|exact I].
Qed.

(** The timing computation on an rpm that is neither zero nor NaN and a
    step count below [2 ^ 1022]: both divisions are carried out, and the
    result has the sign of the rpm. *)
Lemma calculate_delay_from_rpm_signed (self : StepperMotor) (rpm : number) (s : bool) :
  num_sign rpm = Some s ->
  0 < steps_per_revolution self < 2 ^ 1022 ->
  exists t g,
    truediv (Int 60) rpm = Ok t
    /\ float_of_int (steps_per_revolution self * 2) = Ok g
    /\ calculate_delay_from_rpm self rpm = Ok (SFdiv prec emax t g)
    /\ signbit (SFdiv prec emax t g) = Some s.
Proof.
  intros Hs Hn.
  destruct (sixty_over_rpm rpm s Hs) as (t & Ht & Hsig).
  destruct (float_of_int_pos (steps_per_revolution self * 2)) as (m & e & Hg).
  { change (2 ^ 1023) with (2 ^ 1022 * 2). lia. }
  exists t, (S754_finite false m e).
  split; [assumption|]. split; [assumption|].
  unfold calculate_delay_from_rpm. rewrite Ht. cbn [result_bind truediv].
  rewrite Hg. cbn [result_bind]. unfold float_truediv. cbn [is_zero].
  split; [reflexivity|].
  rewrite (SFdiv_signbit t (S754_finite false m e) s false Hsig eq_refl).
  - destruct s; reflexivity.
  - destruct t; exact I.
Qed.

(** ** Binary64 division in the normal range: how far the result is
    from the exact quotient *)

Lemma Zdigits2_eq (m k : Z) :
  0 < k -> 2 ^ (k - 1) <= m < 2 ^ k -> Zdigits2 m = k.
Proof.
  intros Hk [Hl Hu].
  apply Z.le_antisymm.
  - apply Zdigits2_le; [lia|]. split; [|assumption].
    pose proof (Z.pow_pos_nonneg 2 (k - 1)). lia.
  - replace k with (k - 1 + 1) by lia. apply Zdigits2_ge; lia.
Qed.

(** Rounding a mantissa of 53 or 54 bits in the normal range: the result
    is finite and normal, and within two units of the mantissa given. *)
Lemma binary_round_aux_normal (s : bool) (mx ex : Z) (lx : location) :
  2 ^ 52 <= mx < 2 ^ 54 -> -1074 <= ex <= 969 ->
  exists m k,
    binary_round_aux prec emax s mx ex lx = S754_finite s m (ex + k)
    /\ 0 <= k <= 2
    /\ 2 ^ 52 <= Zpos m < 2 ^ 53
    /\ mx - 1 <= Zpos m * 2 ^ k <= mx + 2.
Proof.
  intros Hm He.
  destruct (binary_round_aux_spec s mx ex lx ltac:(lia)) as (m1 & Hm1 & ->).
  assert (Hd : Zdigits2 mx = 53 \/ Zdigits2 mx = 54).
  { destruct (Z_lt_ge_dec mx (2 ^ 53)).
    - left. apply Zdigits2_eq; simpl; lia.
    - right. apply Zdigits2_eq; simpl; lia. }
  set (n1 := Z.max 0 (fexp prec emax (Zdigits2 mx + ex) - ex)) in *.
  assert (Hn1 : n1 = Zdigits2 mx - 53).
  { unfold n1. rewrite fexp_eq. lia. }
  assert (Hq : 2 ^ 52 <= mx / 2 ^ n1 < 2 ^ 53
               /\ mx - 1 <= (mx / 2 ^ n1) * 2 ^ n1 <= mx
               /\ 2 ^ n1 <= 2).
  { destruct Hd as [Hd|Hd]; rewrite Hn1, Hd.
    - change (2 ^ (53 - 53)) with 1. rewrite Z.div_1_r.
      assert (mx < 2 ^ 53).
      { pose proof (Zdigits2_bounds mx ltac:(lia)) as [_ Hu]. rewrite Hd in Hu. exact Hu. }
      lia.
    - change (2 ^ (54 - 53)) with 2.
      assert (2 ^ 53 <= mx).
      { pose proof (Zdigits2_bounds mx ltac:(lia)) as [Hl _]. rewrite Hd in Hl. exact Hl. }
      change (2 ^ 54) with (2 ^ 53 * 2) in Hm.
      change (2 ^ 53) with (2 ^ 52 * 2) in H.
      pose proof (Z.div_mod mx 2 ltac:(lia)).
      pose proof (Z.mod_pos_bound mx 2 ltac:(lia)).
      change (2 ^ 53) with (2 ^ 52 * 2).
      lia. }
  destruct Hq as (Hq1 & Hq2 & Hq3).
  set (e1 := ex + n1) in *.
  assert (Hm1r : 2 ^ 52 <= m1 <= 2 ^ 53) by lia.
  destruct (Z_lt_ge_dec m1 (2 ^ 53)) as [Hlt|Hge].
  - assert (Hd1 : Zdigits2 m1 = 53) by (apply Zdigits2_eq; simpl; lia).
    assert (Hn2 : Z.max 0 (fexp prec emax (Zdigits2 m1 + e1) - e1) = 0).
    { rewrite fexp_eq, Hd1. unfold e1. lia. }
    rewrite Hn2. change (2 ^ 0) with 1. rewrite Z.div_1_r.
    destruct m1 as [|p1|p1]; try lia.
    destruct (Z.leb_spec (e1 + 0) 971); [|unfold e1 in *; lia].
    exists p1, n1. replace (e1 + 0) with (ex + n1) by (unfold e1; lia).
    split; [reflexivity|]. split; [lia|]. split; [lia|].
    assert (Hp : 0 < 2 ^ n1) by (apply Z.pow_pos_nonneg; lia).
    nia.
  - assert (Hm1e : m1 = 2 ^ 53) by lia.
    assert (Hd1 : Zdigits2 m1 = 54) by (rewrite Hm1e; reflexivity).
    assert (Hn2 : Z.max 0 (fexp prec emax (Zdigits2 m1 + e1) - e1) = 1).
    { rewrite fexp_eq, Hd1. unfold e1. lia. }
    rewrite Hn2, Hm1e. change (2 ^ 53 / 2 ^ 1) with (Zpos 4503599627370496).
    destruct (Z.leb_spec (e1 + 1) 971); [|unfold e1 in *; lia].
    exists 4503599627370496%positive, (n1 + 1).
    replace (e1 + 1) with (ex + (n1 + 1)) by (unfold e1; lia).
    split; [reflexivity|]. split; [lia|]. split; [simpl; lia|].
    rewrite Z.pow_add_r by lia. change (2 ^ 1) with 2.
    change (Zpos 4503599627370496) with (2 ^ 52).
    assert (Hp : 0 < 2 ^ n1) by (apply Z.pow_pos_nonneg; lia).
    assert (m1 = 2 ^ 52 * 2) by (rewrite Hm1e; reflexivity).
    nia.
Qed.

(** The quotient the division hands to the rounding, in the normal range:
    the first 53 or 54 bits of the exact quotient. *)
Lemma SFdiv_core_binary_normal (p1 p2 : positive) (e1 e2 : Z) :
  let d1 := Zdigits2 (Zpos p1) in
  let d2 := Zdigits2 (Zpos p2) in
  let e' := d1 + e1 - (d2 + e2) - 53 in
  let s := 53 - d1 + d2 in
  -1074 <= e' -> d1 <= d2 + 53 ->
  exists l,
    SFdiv_core_binary prec emax (Zpos p1) e1 (Zpos p2) e2
    = (Zpos p1 * 2 ^ s / Zpos p2, e', l)
    /\ 2 ^ 52 <= Zpos p1 * 2 ^ s / Zpos p2 < 2 ^ 54.
Proof.
  intros d1 d2 e' s He Hd. unfold SFdiv_core_binary.
  fold d1 d2.
  assert (Hmin : Z.min (fexp prec emax (d1 + e1 - (d2 + e2))) (e1 - e2) = e').
  { rewrite fexp_eq. unfold e'. lia. }
  rewrite Hmin.
  assert (Hs : e1 - e2 - e' = s) by (unfold s, e'; lia).
  rewrite Hs.
  pose proof (Zdigits2_pos (Zpos p1) eq_refl) as Hd1. fold d1 in Hd1.
  pose proof (Zdigits2_pos (Zpos p2) eq_refl) as Hd2. fold d2 in Hd2.
  assert (Hs0 : 0 <= s) by (unfold s; lia).
  set (m' := match s with
             | Z0 => Zpos p1
             | Zpos _ => Z.shiftl (Zpos p1) s
             | Zneg _ => 0
             end).
  assert (Hm' : m' = Zpos p1 * 2 ^ s).
  { unfold m'. destruct s as [|k|k] eqn:Es; try lia.
    rewrite Z.shiftl_mul_pow2 by lia. reflexivity. }
  assert (Hq : Z.div_eucl m' (Zpos p2) = (m' / Zpos p2, m' mod Zpos p2)).
  { unfold Z.div, Z.modulo. destruct (Z.div_eucl m' (Zpos p2)); reflexivity. }
  rewrite Hq, Hm'.
  eexists. split; [reflexivity|].
  pose proof (Zdigits2_bounds (Zpos p1) eq_refl) as [Hl1 Hu1]. fold d1 in Hl1, Hu1.
  pose proof (Zdigits2_bounds (Zpos p2) eq_refl) as [Hl2 Hu2]. fold d2 in Hl2, Hu2.
  assert (Hps : 0 < 2 ^ s) by (apply Z.pow_pos_nonneg; lia).
  assert (Hlow : 2 ^ (52 + d2) <= Zpos p1 * 2 ^ s).
  { replace (52 + d2) with (d1 - 1 + s) by (unfold s; lia).
    rewrite Z.pow_add_r by lia. nia. }
  assert (Hupp : Zpos p1 * 2 ^ s < 2 ^ (53 + d2)).
  { replace (53 + d2) with (d1 + s) by (unfold s; lia).
    rewrite Z.pow_add_r by lia. nia. }
  split.
  - apply Z.div_le_lower_bound; [lia|].
    rewrite Z.pow_add_r in Hlow by lia. nia.
  - apply Z.div_lt_upper_bound; [lia|].
    replace (53 + d2) with (54 + (d2 - 1)) in Hupp by lia.
    rewrite Z.pow_add_r in Hupp by lia. nia.
Qed.

(** One division of positive finite floats in the normal range: the result
    is a normal float whose mantissa [m], scaled by [2 ^ k], is within
    three units of the exact quotient of the scaled mantissas. *)
Lemma SFdiv_normal (p1 p2 : positive) (e1 e2 : Z) :
  let d1 := Zdigits2 (Zpos p1) in
  let d2 := Zdigits2 (Zpos p2) in
  let e' := d1 + e1 - (d2 + e2) - 53 in
  let s := 53 - d1 + d2 in
  -1074 <= e' <= 969 -> d1 <= d2 + 53 ->
  exists m k,
    SFdiv prec emax (S754_finite false p1 e1) (S754_finite false p2 e2)
    = S754_finite false m (e' + k)
    /\ 0 <= k <= 2
    /\ 2 ^ 52 <= Zpos m < 2 ^ 53
    /\ Z.abs (Zpos m * 2 ^ k * Zpos p2 - Zpos p1 * 2 ^ s) <= 3 * Zpos p2.
Proof.
  intros d1 d2 e' s He Hd. cbn [SFdiv xorb].
  destruct (SFdiv_core_binary_normal p1 p2 e1 e2 ltac:(fold d1 d2 e'; lia) Hd)
    as (l & -> & Hq).
  fold d1 d2 e' s in Hq |- *.
  set (q := Zpos p1 * 2 ^ s / Zpos p2) in *.
  destruct (binary_round_aux_normal false q e' l Hq He) as (m & k & -> & Hk & Hm & Hv).
  exists m, k. split; [reflexivity|]. split; [assumption|]. split; [assumption|].
  pose proof (Z.div_mod (Zpos p1 * 2 ^ s) (Zpos p2) ltac:(lia)) as Hdm.
  pose proof (Z.mod_pos_bound (Zpos p1 * 2 ^ s) (Zpos p2) ltac:(lia)) as Hmb.
  fold q in Hdm.
  nia.
Qed.

(** An int below [2 ^ 53] is a float: the conversion is exact. *)
Lemma float_of_int_exact (z : Z) :
  0 < z < 2 ^ 53 ->
  exists m,
    float_of_int z = Ok (S754_finite false m (Zdigits2 z - 53))
    /\ Zpos m = z * 2 ^ (53 - Zdigits2 z)
    /\ 2 ^ 52 <= Zpos m < 2 ^ 53.
Proof.
  intros [Hz Hu]. destruct z as [|p|p]; try lia.
  pose proof (Zdigits2_pos (Zpos p) eq_refl) as Hd0.
  assert (Hd : Zdigits2 (Zpos p) <= 53) by (apply Zdigits2_le; lia).
  unfold float_of_int. cbn [binary_normalize]. unfold binary_round.
  pose proof (shl_align_spec p 0 (fexp prec emax (Zpos (digits2_pos p) + 0))) as Hs.
  assert (Hsnd : snd (shl_align p 0 (fexp prec emax (Zpos (digits2_pos p) + 0)))
                 = Zdigits2 (Zpos p) - 53).
  { unfold shl_align. rewrite fexp_eq. cbn [Zdigits2] in *.
    destruct (Z.max (Zpos (digits2_pos p) + 0 - 53) (-1074) - 0) eqn:E;
      cbn [snd]; lia. }
  destruct (shl_align p 0 (fexp prec emax (Zpos (digits2_pos p) + 0))) as [mz ez].
  cbn [snd] in Hsnd. subst ez. destruct Hs as [_ Hm].
  replace (0 - (Zdigits2 (Zpos p) - 53)) with (53 - Zdigits2 (Zpos p)) in Hm by lia.
  assert (Hdz : Zdigits2 (Zpos mz) = 53).
  { rewrite Hm, Zdigits2_mul_pow2 by lia. lia. }
  pose proof (Zdigits2_bounds (Zpos mz) eq_refl) as Hb. rewrite Hdz in Hb.
  exists mz. split; [|split; [exact Hm|simpl in Hb |- *; lia]].
  unfold binary_round_aux, shr_fexp. rewrite Hdz, fexp_eq.
  replace (Z.max (53 + (Zdigits2 (Zpos p) - 53) - 53) (-1074) - (Zdigits2 (Zpos p) - 53))
    with 0 by lia.
  cbn [shr shr_record_of_loc loc_of_shr_record round_nearest_even shr_m].
  rewrite Hdz, fexp_eq.
  replace (Z.max (53 + (Zdigits2 (Zpos p) - 53) - 53) (-1074) - (Zdigits2 (Zpos p) - 53))
    with 0 by lia.
  cbn [shr shr_m].
  destruct (Z.leb_spec (Zdigits2 (Zpos p) - 53) (emax - prec)) as [|H];
    [reflexivity|unfold emax, prec in H; lia].
Qed.

(** The arithmetic of two successive rounding errors. *)
Lemma two_roundings_close (md mt r n c K1 K2 S1 P : Z) :
  0 < r -> 0 < n -> 0 < c -> 0 < P ->
  1 <= K1 <= 4 -> 1 <= K2 <= 4 ->
  2 * n * c < 2 ^ 53 ->
  r * 2 ^ 47 <= S1 ->
  P * K1 * K2 * c = S1 * 2 ^ 53 ->
  Z.abs (mt * K1 * r - 60 * S1) <= 3 * r ->
  Z.abs (md * K2 * (2 * n * c) - mt * 2 ^ 53) <= 3 * (2 * n * c) ->
  2 ^ 49 * Z.abs (md * r * n - 30 * P) <= 30 * P.
Proof.
  intros Hr Hn Hc HP HK1 HK2 Hg HS HPK E1 E2.
  set (G := md * r * n - 30 * P).
  set (A := md * K2 * (2 * n * c) - mt * 2 ^ 53) in *.
  set (B := mt * K1 * r - 60 * S1) in *.
  assert (HG : G * (2 * K1 * K2 * c) = A * (r * K1) + 2 ^ 53 * B).
  { unfold G, A, B.
    transitivity (md * r * n * (2 * K1 * K2 * c) - 60 * (P * K1 * K2 * c)); [ring|].
    rewrite HPK. ring. }
  assert (Habs : Z.abs G * (2 * K1 * K2 * c) <= 15 * 2 ^ 53 * r).
  { replace (Z.abs G * (2 * K1 * K2 * c)) with (Z.abs (G * (2 * K1 * K2 * c))).
    2:{ rewrite Z.abs_mul. f_equal. apply Z.abs_eq. nia. }
    rewrite HG.
    eapply Z.le_trans; [apply Z.abs_triangle|].
    rewrite (Z.abs_mul A (r * K1)), (Z.abs_mul (2 ^ 53) B).
    rewrite (Z.abs_eq (r * K1)) by nia.
    rewrite (Z.abs_eq (2 ^ 53)) by lia.
    assert (Z.abs A * (r * K1) <= 3 * 2 ^ 53 * (r * 4)).
    { apply Z.mul_le_mono_nonneg; try lia. nia. }
    assert (2 ^ 53 * Z.abs B <= 2 ^ 53 * (3 * r)).
    { apply Z.mul_le_mono_nonneg_l; lia. }
    lia. }
  assert (Hfin : 2 ^ 49 * Z.abs G * (2 * K1 * K2 * c) <= 30 * P * (2 * K1 * K2 * c)).
  { replace (30 * P * (2 * K1 * K2 * c)) with (60 * (P * K1 * K2 * c)) by ring.
    rewrite HPK.
    replace (2 ^ 49 * Z.abs G * (2 * K1 * K2 * c))
      with (2 ^ 49 * (Z.abs G * (2 * K1 * K2 * c))) by ring.
    assert (2 ^ 49 * (Z.abs G * (2 * K1 * K2 * c)) <= 2 ^ 49 * (15 * 2 ^ 53 * r)).
    { apply Z.mul_le_mono_nonneg_l; lia. }
    change (2 ^ 49) with (4 * 2 ^ 47) in *.
    nia. }
  assert (Hpos : 0 < 2 * K1 * K2 * c) by nia.
  apply Z.mul_le_mono_pos_r with (p := 2 * K1 * K2 * c); assumption.
Qed.

(** The delay on an int rpm below [2 ^ 64] and a step count below
    [2 ^ 52]: a positive normal float [m * 2 ^ e] within relative error
    [2 ^ -49] of the rational [30 / (rpm * N)]. *)
Lemma calculate_delay_from_rpm_close (self : StepperMotor) (rpm : Z) :
  0 < rpm < 2 ^ 64 ->
  0 < steps_per_revolution self < 2 ^ 52 ->
  exists m e,
    calculate_delay_from_rpm self (Int rpm) = Ok (S754_finite false m e)
    /\ e < 0
    /\ 2 ^ 49 * Z.abs (Zpos m * rpm * steps_per_revolution self - 30 * 2 ^ (- e))
       <= 30 * 2 ^ (- e).
Proof.
  intros Hr Hn. set (n := steps_per_revolution self) in *.
  destruct rpm as [|pr|pr]; try lia.
  (* 60 / rpm *)
  pose proof (Zdigits2_pos (Zpos pr) eq_refl) as Hdr0.
  assert (Hdr : Zdigits2 (Zpos pr) <= 64) by (apply Zdigits2_le; lia).
  destruct (SFdiv_normal 60 pr 0 0) as (mt & k1 & Ht & Hk1 & Hmt & E1).
  { change (Zdigits2 60) with 6. lia. }
  { change (Zdigits2 60) with 6. lia. }
  change (Zdigits2 60) with 6 in Ht, E1.
  set (dr := Zdigits2 (Zpos pr)) in *.
  (* float(N * 2) *)
  destruct (float_of_int_exact (n * 2)) as (mg & Hg & Hmg & Hmgb).
  { change (2 ^ 53) with (2 ^ 52 * 2). lia. }
  set (dn := Zdigits2 (n * 2)) in *.
  assert (Hdn : 1 <= dn <= 53).
  { split; [apply Zdigits2_pos; lia|].
    apply Zdigits2_le; [lia|]. change (2 ^ 53) with (2 ^ 52 * 2). lia. }
  (* the second division *)
  assert (Hdt : Zdigits2 (Zpos mt) = 53) by (apply Zdigits2_eq; simpl; lia).
  assert (Hdg : Zdigits2 (Zpos mg) = 53) by (apply Zdigits2_eq; simpl; lia).
  destruct (SFdiv_normal mt mg (6 + 0 - (dr + 0) - 53 + k1) (dn - 53))
    as (md & k2 & Hd & Hk2 & Hmd & E2).
  { rewrite Hdt, Hdg. lia. }
  { rewrite Hdt, Hdg. lia. }
  rewrite Hdt, Hdg in Hd, E2.
  exists md.
  eexists. split; [|split].
  - unfold calculate_delay_from_rpm. cbn [truediv]. unfold int_truediv.
    change (Zpos pr =? 0) with false. cbn [raw_of_int]. rewrite Ht.
    cbn [result_bind truediv]. fold n. rewrite Hg. cbn [result_bind].
    unfold float_truediv. cbn [is_zero]. rewrite Hd. reflexivity.
  - lia.
  - replace (53 - 53 + 53) with 53 in E2 by lia.
    replace (53 - 6 + dr) with (47 + dr) in E1 by lia.
    replace (- (53 + (6 + 0 - (dr + 0) - 53 + k1) - (53 + (dn - 53)) - 53 + k2))
      with (47 + dr + dn - k1 - k2) by lia.
    assert (Hc : 0 < 2 ^ (53 - dn)) by (apply Z.pow_pos_nonneg; lia).
    assert (HP : 0 < 2 ^ (47 + dr + dn - k1 - k2)) by (apply Z.pow_pos_nonneg; lia).
    assert (HK1 : 1 <= 2 ^ k1 <= 4).
    { assert (k1 = 0 \/ k1 = 1 \/ k1 = 2) as [->|[->| ->]] by lia; simpl; lia. }
    assert (HK2 : 1 <= 2 ^ k2 <= 4).
    { assert (k2 = 0 \/ k2 = 1 \/ k2 = 2) as [->|[->| ->]] by lia; simpl; lia. }
    assert (Hgc : 2 * n * 2 ^ (53 - dn) = Zpos mg) by (rewrite Hmg; ring).
    assert (HS : Zpos pr * 2 ^ 47 <= 2 ^ (47 + dr)).
    { rewrite Z.pow_add_r by lia.
      pose proof (Zdigits2_bounds (Zpos pr) eq_refl) as [_ Hu]. fold dr in Hu. lia. }
    assert (HPK : 2 ^ (47 + dr + dn - k1 - k2) * 2 ^ k1 * 2 ^ k2 * 2 ^ (53 - dn)
                  = 2 ^ (47 + dr) * 2 ^ 53).
    { rewrite <- !Z.pow_add_r by lia. f_equal. lia. }
    apply (two_roundings_close (Zpos md) (Zpos mt) (Zpos pr) n
             (2 ^ (53 - dn)) (2 ^ k1) (2 ^ k2) (2 ^ (47 + dr))
             (2 ^ (47 + dr + dn - k1 - k2))); try assumption; lia.
Qed.

(** The arithmetic of dividing 360 by a step angle that was itself rounded:
    an integral quotient can only be [n]. *)
Lemma full_turn_quotient (ma mq n i c K1 K2 W S1 : Z) :
  0 < n < 2 ^ 49 -> 0 <= i -> 0 < c -> 0 < K1 -> 0 < K2 -> 0 < W ->
  0 < ma < 2 ^ 53 ->
  n * c < 2 ^ 53 ->
  S1 * c = 2 ^ 97 ->
  W * K2 = c * K1 ->
  mq = i * W ->
  Z.abs (ma * K1 * n - 360 * S1) <= 3 * n ->
  Z.abs (mq * K2 * ma - 360 * 2 ^ 44 * 2 ^ 53) <= 3 * ma ->
  i = n.
Proof.
  intros Hn Hi Hc HK1 HK2 HW Hma Hnc HS HWK Hmq E1 E2.
  set (Y := i * c * K1 * ma).
  assert (HY : mq * K2 * ma = Y).
  { unfold Y. rewrite Hmq.
    replace (i * W * K2 * ma) with (i * (W * K2) * ma) by ring.
    rewrite HWK. ring. }
  rewrite HY in E2.
  change (360 * 2 ^ 44 * 2 ^ 53) with (360 * 2 ^ 97) in E2.
  assert (F1 : Z.abs (Y * n - i * 360 * 2 ^ 97) <= 3 * n * (i * c)).
  { replace (Y * n - i * 360 * 2 ^ 97)
      with ((ma * K1 * n - 360 * S1) * (i * c)).
    2:{ unfold Y. rewrite <- HS. ring. }
    rewrite Z.abs_mul, (Z.abs_eq (i * c)) by nia.
    apply Z.mul_le_mono_nonneg_r; [nia|assumption]. }
  assert (F2 : Z.abs (Y * n - n * 360 * 2 ^ 97) <= 3 * ma * n).
  { replace (Y * n - n * 360 * 2 ^ 97) with ((Y - 360 * 2 ^ 97) * n) by ring.
    rewrite Z.abs_mul, (Z.abs_eq n) by lia.
    apply Z.mul_le_mono_nonneg_r; [lia|assumption]. }
  assert (F3 : Z.abs ((i - n) * (360 * 2 ^ 97)) <= 3 * n * (i * c) + 3 * ma * n).
  { replace ((i - n) * (360 * 2 ^ 97))
      with ((Y * n - n * 360 * 2 ^ 97) - (Y * n - i * 360 * 2 ^ 97)) by ring.
    eapply Z.le_trans; [apply Z.abs_triangle|].
    rewrite Z.abs_opp. lia. }
  assert (F4 : 3 * n * (i * c) <= 3 * 2 ^ 53 * i).
  { replace (3 * n * (i * c)) with (3 * (n * c) * i) by ring.
    apply Z.mul_le_mono_nonneg_r; lia. }
  assert (F5 : 3 * ma * n <= 3 * 2 ^ 53 * n).
  { apply Z.mul_le_mono_nonneg_r; lia. }
  rewrite Z.abs_mul, (Z.abs_eq (360 * 2 ^ 97)) in F3 by lia.
  change (360 * 2 ^ 97) with (120 * 2 ^ 44 * (3 * 2 ^ 53)) in F3.
  assert (F6 : Z.abs (i - n) * (120 * 2 ^ 44) <= i + n).
  { apply Z.mul_le_mono_pos_r with (p := 3 * 2 ^ 53); [lia|].
    replace (Z.abs (i - n) * (120 * 2 ^ 44) * (3 * 2 ^ 53))
      with (Z.abs (i - n) * (120 * 2 ^ 44 * (3 * 2 ^ 53))) by ring.
    lia. }
  change (2 ^ 49) with 562949953421312 in Hn.
  change (120 * 2 ^ 44) with 2111062325329920 in F6.
  lia.
Qed.

(** With fewer than [2 ^ 49] steps per revolution, converting 360 degrees
    gives the step index [N], when the multiple check lets it through. *)
Lemma steps_of_degree_360 (self : StepperMotor) :
  0 < steps_per_revolution self < 2 ^ 49 ->
  steps_of_degree self (Int 360) = Ok (steps_per_revolution self)
  \/ steps_of_degree self (Int 360) = Error NotAStepMultiple.
Proof.
  intros Hn. unfold steps_of_degree.
  set (n := steps_per_revolution self) in *.
  change (num_lt (Int 360) (Int 0) || num_gt (Int 360) (Int 360)) with false.
  cbv iota.
  destruct n as [|pn|pn] eqn:En; try lia.
  pose proof (Zdigits2_pos (Zpos pn) eq_refl) as Hd0.
  assert (Hd : Zdigits2 (Zpos pn) <= 49) by (apply Zdigits2_le; lia).
  set (dn := Zdigits2 (Zpos pn)) in *.
  (* step_angle = 360 / N *)
  destruct (SFdiv_normal 360 pn 0 0) as (ma & k1 & Ha & Hk1 & Hma & E1).
  { change (Zdigits2 360) with 9. fold dn. lia. }
  { change (Zdigits2 360) with 9. fold dn. lia. }
  change (Zdigits2 360) with 9 in Ha, E1. fold dn in Ha, E1.
  cbn [truediv]. unfold int_truediv. change (Zpos pn =? 0) with false.
  cbn [raw_of_int]. rewrite Ha. cbn [result_bind].
  (* degree / step_angle *)
  change (float_of_int 360) with (Ok (S754_finite false 6333186975989760 (-44))).
  cbn [result_bind]. unfold float_truediv. cbn [is_zero result_bind].
  assert (Hda : Zdigits2 (Zpos ma) = 53) by (apply Zdigits2_eq; simpl; lia).
  destruct (SFdiv_normal 6333186975989760 ma (-44) (9 + 0 - (dn + 0) - 53 + k1))
    as (mq & k2 & Hq & Hk2 & Hmq & E2).
  { change (Zdigits2 6333186975989760) with 53. rewrite Hda. lia. }
  { change (Zdigits2 6333186975989760) with 53. rewrite Hda. lia. }
  change (Zdigits2 6333186975989760) with 53 in Hq, E2. rewrite Hda in Hq, E2.
  rewrite Hq.
  set (e_q := 53 + -44 - (53 + (9 + 0 - (dn + 0) - 53 + k1)) - 53 + k2) in *.
  assert (Heq : e_q = - (53 + k1 - k2 - dn)) by (unfold e_q; lia).
  destruct e_q as [|pe|pe] eqn:Ee; try lia.
  cbn [int_of_float result_bind].
  set (i := Zpos mq / 2 ^ Zpos pe).
  unfold num_ne, num_eq. cbn [num_compare option_map compare_int_float].
  destruct (Z.compare_spec (i * 2 ^ Zpos pe) (Zpos mq)) as [Hcmp|Hcmp|Hcmp];
    cbn [CompOpp negb]; auto.
  left. f_equal.
  assert (HW : 0 < 2 ^ Zpos pe) by (apply Z.pow_pos_nonneg; lia).
  assert (Hi : 0 <= i) by (apply Z.div_pos; lia).
  assert (HPe : Zpos pe = 53 + k1 - k2 - dn) by lia.
  assert (Hc : 0 < 2 ^ (53 - dn)) by (apply Z.pow_pos_nonneg; lia).
  assert (HK1 : 0 < 2 ^ k1) by (apply Z.pow_pos_nonneg; lia).
  assert (HK2 : 0 < 2 ^ k2) by (apply Z.pow_pos_nonneg; lia).
  assert (Hnc : Zpos pn * 2 ^ (53 - dn) < 2 ^ 53).
  { pose proof (Zdigits2_bounds (Zpos pn) eq_refl) as [_ Hu]. fold dn in Hu.
    assert (2 ^ dn * 2 ^ (53 - dn) = 2 ^ 53).
    { rewrite <- Z.pow_add_r by lia. f_equal. lia. }
    nia. }
  assert (HS : 2 ^ (44 + dn) * 2 ^ (53 - dn) = 2 ^ 97).
  { rewrite <- Z.pow_add_r by lia. f_equal. lia. }
  assert (HWK : 2 ^ Zpos pe * 2 ^ k2 = 2 ^ (53 - dn) * 2 ^ k1).
  { rewrite HPe, <- !Z.pow_add_r by lia. f_equal. lia. }
  replace (53 - 9 + dn) with (44 + dn) in E1 by lia.
  replace (53 - 53 + 53) with 53 in E2 by lia.
  change (Zpos 6333186975989760) with (360 * 2 ^ 44) in E2.
  apply (full_turn_quotient (Zpos ma) (Zpos mq) (Zpos pn) i
           (2 ^ (53 - dn)) (2 ^ k1) (2 ^ k2) (2 ^ Zpos pe) (2 ^ (44 + dn)));
    try assumption; lia.
Qed.

(** ** The position counter *)

Section Position.

Variable self : StepperMotor.
Let n := steps_per_revolution self.

Lemma update_position_self_fields (d : bool) :
  steps_per_revolution (update_position_self d self) = n
  /\ max_rpm (update_position_self d self) = max_rpm self
  /\ hold_position (update_position_self d self) = hold_position self.
Proof.
  unfold update_position_self.
  destruct (steps_from_home self) as [p|]; [|auto].
  destruct d.
  - destruct (p + 1 =? steps_per_revolution self); simpl; auto.
  - simpl; auto.
Qed.

Lemma update_position_self_unset (d : bool) :
  steps_from_home self = None -> update_position_self d self = self.
Proof. unfold update_position_self. intros ->. reflexivity. Qed.

(** One call is a step of a counter modulo [n]. *)
Lemma update_position_self_mod (d : bool) (p : Z) :
  steps_from_home self = Some p -> 0 <= p < n ->
  steps_from_home (update_position_self d self)
  = Some ((if d then p + 1 else p - 1) mod n).
Proof.
  intros Hp Hr. unfold update_position_self. rewrite Hp. fold n.
  destruct d.
  - destruct (Z.eqb_spec (p + 1) n) as [E|E]; simpl; f_equal.
    + rewrite E. symmetry. apply Z.mod_same. lia.
    + symmetry. apply Z.mod_small. lia.
  - destruct (Z.eqb_spec p 0) as [E|E]; simpl; f_equal.
    + subst p. symmetry. rewrite <- (Z.mod_add (0 - 1) 1 n) by lia.
      rewrite Z.mod_small; lia.
    + symmetry. apply Z.mod_small. lia.
Qed.

Lemma update_position_self_in_range (d : bool) :
  home_in_range self -> home_in_range (update_position_self d self).
Proof.
  intros (p & Hp & Hr).
  exists ((if d then p + 1 else p - 1) mod n). split.
  - apply update_position_self_mod; assumption.
  - destruct (update_position_self_fields d) as (-> & _).
    apply Z.mod_pos_bound. fold n in Hr. lia.
Qed.

End Position.

Lemma update_times_fields (k : nat) (d : bool) (self : StepperMotor) :
  steps_per_revolution (update_times k d self) = steps_per_revolution self
  /\ max_rpm (update_times k d self) = max_rpm self
  /\ hold_position (update_times k d self) = hold_position self.
Proof.
  revert self. induction k as [|k IH]; intros self; simpl; [auto|].
  destruct (IH (update_position_self d self)) as (-> & -> & ->).
  apply update_position_self_fields.
Qed.

(** [k] calls in one direction move the counter by [k] modulo [n]. *)
Lemma update_times_mod (k : nat) (d : bool) (self : StepperMotor) (p : Z) :
  steps_from_home self = Some p ->
  0 <= p < steps_per_revolution self ->
  steps_from_home (update_times k d self)
  = Some ((if d then p + Z.of_nat k else p - Z.of_nat k)
            mod steps_per_revolution self).
Proof.
  revert self p. induction k as [|k IH]; intros self p Hp Hr.
  - simpl. rewrite Hp. f_equal.
    replace (if d then p + 0 else p - 0) with p by (destruct d; lia).
    symmetry. apply Z.mod_small. assumption.
  - cbn [update_times].
    pose proof (update_position_self_mod self d p Hp Hr) as H1.
    destruct (update_position_self_fields self d) as (Hn & _).
    rewrite (IH _ _ H1); rewrite Hn.
    + f_equal. destruct d.
      * rewrite Zplus_mod_idemp_l. f_equal. lia.
      * rewrite Zminus_mod_idemp_l. f_equal. lia.
    + apply Z.mod_pos_bound. lia.
Qed.

Lemma observations_in_range (dirs : list bool) :
  forall st, home_in_range (motor st) ->
  Forall (fun s => home_in_range (motor s)) (observations dirs st).
Proof.
  induction dirs as [|d dirs IH]; intros st H; cbn [observations].
  - constructor; [assumption|constructor].
  - constructor; [assumption|].
    apply IH. cbn. apply update_position_self_in_range. assumption.
Qed.

(** ** Traces *)

Lemma pulses_app (t1 t2 : list event) :
  pulses (t1 ++ t2) = pulses t1 + pulses t2.
Proof.
  unfold pulses. rewrite filter_app, length_app. lia.
Qed.

Lemma pulses_repeat (d : spec_float) (k : nat) :
  pulses (concat (repeat (pulse_events d) k)) = Z.of_nat k.
Proof.
  induction k as [|k IH].
  - reflexivity.
  - cbn [repeat concat]. rewrite pulses_app, IH.
    change (pulses (pulse_events d)) with 1. lia.
Qed.

Lemma pulses_step_events (self : StepperMotor) (steps : Z) (cw : bool)
    (d : spec_float) :
  pulses (step_events self steps cw d) = Z.max 0 steps.
Proof.
  unfold step_events. rewrite !pulses_app, pulses_repeat.
  replace (pulses [GPIO_output direction_pin (if cw then HIGH else LOW);
                   GPIO_output enable_pin LOW]) with 0
    by (destruct cw; reflexivity).
  replace (pulses (if hold_position self then [] else [GPIO_output enable_pin HIGH]))
    with 0 by (destruct (hold_position self); reflexivity).
  lia.
Qed.

(** ** The timing computation raises only on a division *)

Lemma truediv_error (x y : number) (e : exn) :
  truediv x y = Error e -> e = ZeroDivisionError \/ e = OverflowError.
Proof.
  assert (Hf : forall z f, float_of_int z = Error f -> f = OverflowError).
  { intros z f. unfold float_of_int.
    destruct (binary_normalize prec emax z 0 false); congruence. }
  assert (Hd : forall a b f, float_truediv a b = Error f -> f = ZeroDivisionError).
  { intros a b f. unfold float_truediv. destruct (is_zero b); congruence. }
  destruct x as [a|f], y as [b|g]; simpl.
  - unfold int_truediv. destruct (b =? 0); [intros [= <-]; auto|].
    destruct (SFdiv prec emax (raw_of_int a) (raw_of_int b));
      intros [= <-]; auto.
  - destruct (float_of_int a) as [f|e'] eqn:E; simpl.
    + intros H. left. eapply Hd, H.
    + intros [= <-]. right. eapply Hf, E.
  - destruct (float_of_int b) as [g|e'] eqn:E; simpl.
    + intros H. left. eapply Hd, H.
    + intros [= <-]. right. eapply Hf, E.
  - intros H. left. eapply Hd, H.
Qed.

Lemma calculate_delay_from_rpm_error (self : StepperMotor) (rpm : number) (e : exn) :
  calculate_delay_from_rpm self rpm = Error e ->
  e = ZeroDivisionError \/ e = OverflowError.
Proof.
  unfold calculate_delay_from_rpm.
  destruct (truediv (Int 60) rpm) as [t|e'] eqn:E; cbn [result_bind].
  - apply truediv_error.
  - intros [= <-]. eapply truediv_error, E.
Qed.

Lemma calculate_delay_from_rpm_ext (a b : StepperMotor) (rpm : number) :
  steps_per_revolution a = steps_per_revolution b ->
  calculate_delay_from_rpm a rpm = calculate_delay_from_rpm b rpm.
Proof. unfold calculate_delay_from_rpm. intros ->. reflexivity. Qed.

Lemma steps_of_degree_ext (a b : StepperMotor) (degree : number) :
  steps_per_revolution a = steps_per_revolution b ->
  steps_of_degree a degree = steps_of_degree b degree.
Proof. unfold steps_of_degree. intros ->. reflexivity. Qed.

Lemma le_not_gt (x y : number) : num_le x y = true -> num_gt x y = false.
Proof. unfold num_le, num_gt. destruct (num_compare x y) as [[]|]; congruence. Qed.

Lemma distance_bounds (n current target : Z) (cw : bool) :
  0 <= current < n -> 0 <= target < n -> target <> current ->
  1 <= distance n current target cw <= n - 1.
Proof.
  intros Hc Ht Hne. unfold distance.
  destruct cw; destruct (Z.gtb_spec target current); lia.
Qed.

(** Moving [distance] steps from [current] in the chosen direction ends
    on [target]. *)
Lemma distance_reaches (n current target : Z) (cw : bool) :
  0 <= current < n -> 0 <= target < n ->
  (if cw then current + distance n current target cw
   else current - distance n current target cw) mod n = target.
Proof.
  intros Hc Ht. unfold distance.
  destruct cw; destruct (Z.gtb_spec target current).
  - rewrite Z.mod_small; lia.
  - replace (current + (n - current + target)) with (target + 1 * n) by lia.
    rewrite Z.mod_add by lia. rewrite Z.mod_small; lia.
  - replace (current - (current + (n - target))) with (target + (-1) * n) by lia.
    rewrite Z.mod_add by lia. rewrite Z.mod_small; lia.
  - rewrite Z.mod_small; lia.
Qed.

Section Runs.

Context {clock : Clock}.

(** ** The pulse loop and [step] *)

Lemma run_pulse (d : spec_float) (cw : bool) (st : state) :
  sleep_rejects d = false ->
  run (pulse d cw) st
  = (Return tt, mkState (update_position_self cw (motor st))
                        (trace st ++ pulse_events d)).
Proof.
  intros Hs.
  unfold run, pulse, bind, sleep, emit, update_position, modify_self.
  rewrite Hs. simpl. repeat rewrite <- app_assoc. reflexivity.
Qed.

(** A refused sleep stops the pulse after its rising edge. *)
Lemma run_pulse_rejected (d : spec_float) (cw : bool) (st : state) :
  sleep_rejects d = true ->
  run (pulse d cw) st
  = (Raise (time_sleep_error d),
     mkState (motor st) (trace st ++ [GPIO_output pulse_pin HIGH])).
Proof.
  intros Hs. unfold run, pulse, bind, sleep, emit, raise.
  rewrite Hs. reflexivity.
Qed.

Lemma run_for_range_nat (k : nat) (d : spec_float) (cw : bool) :
  sleep_rejects d = false ->
  forall st,
  run (for_range_nat k (pulse d cw)) st
  = (Return tt, mkState (update_times k cw (motor st))
                        (trace st ++ concat (repeat (pulse_events d) k))).
Proof.
  intros Hs. induction k as [|k IH]; intros st.
  - unfold run; simpl. unfold ret. rewrite app_nil_r. destruct st; reflexivity.
  - cbn [for_range_nat]. unfold run, bind.
    pose proof (run_pulse d cw st Hs) as Hp. unfold run in Hp. rewrite Hp.
    specialize (IH (mkState (update_position_self cw (motor st))
                            (trace st ++ pulse_events d))).
    unfold run in IH. rewrite IH. cbn [motor trace update_times repeat concat].
    rewrite <- app_assoc. reflexivity.
Qed.

Lemma run_for_range_nat_rejected (k : nat) (d : spec_float) (cw : bool) (st : state) :
  sleep_rejects d = true ->
  run (for_range_nat (S k) (pulse d cw)) st
  = (Raise (time_sleep_error d),
     mkState (motor st) (trace st ++ [GPIO_output pulse_pin HIGH])).
Proof.
  intros Hs. cbn [for_range_nat]. unfold run, bind.
  pose proof (run_pulse_rejected d cw st Hs) as Hp. unfold run in Hp.
  rewrite Hp. reflexivity.
Qed.

Lemma timing_computed_inv (self : StepperMotor) (rpm : number) :
  timing_computed self rpm = true ->
  (forall limit, max_rpm self = Some limit -> num_gt rpm limit = false)
  /\ exists d, calculate_delay_from_rpm self rpm = Ok d.
Proof.
  unfold timing_computed. intros H. apply andb_true_iff in H as [H1 H2]. split.
  - intros limit E. rewrite E in H1. now apply negb_true_iff in H1.
  - destruct (calculate_delay_from_rpm self rpm) as [d|e]; [eauto|discriminate].
Qed.

Lemma speed_accepted_inv (self : StepperMotor) (rpm : number) :
  speed_accepted self rpm = true ->
  (forall limit, max_rpm self = Some limit -> num_gt rpm limit = false)
  /\ exists d, calculate_delay_from_rpm self rpm = Ok d
               /\ sleep_rejects d = false.
Proof.
  unfold speed_accepted. intros H. apply andb_true_iff in H as [H1 H2]. split.
  - intros limit E. rewrite E in H1. now apply negb_true_iff in H1.
  - destruct (calculate_delay_from_rpm self rpm) as [d|e]; [|discriminate].
    exists d. split; [reflexivity|]. now apply negb_true_iff in H2.
Qed.

(** [step] up to its loop: the speed check passes, the two lines are
    written and the delay [d] is computed. *)
Lemma run_step_prefix (st : state) (steps : Z) (cw : bool) (rpm : number)
    (d : spec_float) :
  (forall limit, max_rpm (motor st) = Some limit -> num_gt rpm limit = false) ->
  calculate_delay_from_rpm (motor st) rpm = Ok d ->
  run (step steps cw rpm) st
  = run (for_range steps (pulse d cw) ;;;
         if negb (hold_position (motor st))
         then emit (GPIO_output enable_pin HIGH)
         else ret tt)
        (mkState (motor st)
                 (trace st ++ [GPIO_output direction_pin (if cw then HIGH else LOW);
                               GPIO_output enable_pin LOW])).
Proof.
  intros Hlim Hd. unfold run, step. unfold bind at 1, get_self at 1.
  unfold bind at 1.
  assert (Hchk : (match max_rpm (motor st) with
                  | Some limit => if num_gt rpm limit then raise SpeedExceeded else ret tt
                  | None => ret tt
                  end) st = (Return tt, st)).
  { destruct (max_rpm (motor st)) as [limit|]; [|reflexivity].
    rewrite (Hlim limit eq_refl). reflexivity. }
  rewrite Hchk. unfold bind at 1.
  assert (Hdir : (if cw then emit (GPIO_output direction_pin HIGH)
                  else emit (GPIO_output direction_pin LOW)) st
                 = (Return tt, mkState (motor st)
                      (trace st ++ [GPIO_output direction_pin (if cw then HIGH else LOW)]))).
  { destruct cw; reflexivity. }
  rewrite Hdir. unfold bind at 1, emit at 1. cbn [motor trace].
  unfold bind at 1. rewrite Hd. unfold lift, ret at 1.
  rewrite <- app_assoc. reflexivity.
Qed.

(** [step] when the loop runs to its end: the whole effect of the call. *)
Lemma run_step (st : state) (steps : Z) (cw : bool) (rpm : number) (d : spec_float) :
  (forall limit, max_rpm (motor st) = Some limit -> num_gt rpm limit = false) ->
  calculate_delay_from_rpm (motor st) rpm = Ok d ->
  steps <= 0 \/ sleep_rejects d = false ->
  run (step steps cw rpm) st
  = (Return tt,
     mkState (update_times (Z.to_nat steps) cw (motor st))
             (trace st ++ step_events (motor st) steps cw d)).
Proof.
  intros Hlim Hd Hs. rewrite (run_step_prefix st steps cw rpm d Hlim Hd).
  unfold run, bind, for_range.
  assert (Hloop : forall s0,
            for_range_nat (Z.to_nat steps) (pulse d cw) s0
            = (Return tt, mkState (update_times (Z.to_nat steps) cw (motor s0))
                 (trace s0 ++ concat (repeat (pulse_events d) (Z.to_nat steps))))).
  { intros s0. destruct Hs as [Hs|Hs].
    - replace (Z.to_nat steps) with O by lia. simpl. unfold ret.
      rewrite app_nil_r. destruct s0; reflexivity.
    - apply (run_for_range_nat (Z.to_nat steps) d cw Hs). }
  rewrite Hloop. cbn [motor trace]. unfold step_events.
  destruct (hold_position (motor st)); cbn [negb]; unfold ret, emit; cbn [motor trace];
    repeat rewrite <- app_assoc; cbn [app]; rewrite ?app_nil_r; reflexivity.
Qed.

(** [step] when [time.sleep] refuses the delay: the first pulse has risen,
    the position has not moved. *)
Lemma run_step_sleep_error (st : state) (steps : Z) (cw : bool) (rpm : number)
    (d : spec_float) :
  (forall limit, max_rpm (motor st) = Some limit -> num_gt rpm limit = false) ->
  calculate_delay_from_rpm (motor st) rpm = Ok d ->
  0 < steps -> sleep_rejects d = true ->
  run (step steps cw rpm) st
  = (Raise (time_sleep_error d),
     mkState (motor st)
             (trace st ++ [GPIO_output direction_pin (if cw then HIGH else LOW);
                           GPIO_output enable_pin LOW;
                           GPIO_output pulse_pin HIGH])).
Proof.
  intros Hlim Hd Hpos Hs. rewrite (run_step_prefix st steps cw rpm d Hlim Hd).
  unfold run, bind, for_range.
  destruct (Z.to_nat steps) as [|k] eqn:Ek; [lia|].
  pose proof (run_for_range_nat_rejected k d cw
                (mkState (motor st)
                   (trace st ++ [GPIO_output direction_pin (if cw then HIGH else LOW);
                                 GPIO_output enable_pin LOW])) Hs) as Hl.
  unfold run in Hl. rewrite Hl. cbn [motor trace].
  rewrite <- app_assoc. reflexivity.
Qed.

(** [step] on a refused speed: nothing has happened when it raises. *)
Lemma run_step_refused (st : state) (steps : Z) (cw : bool) (rpm limit : number) :
  max_rpm (motor st) = Some limit -> num_gt rpm limit = true ->
  run (step steps cw rpm) st = (Raise SpeedExceeded, st).
Proof.
  intros Hm Hgt. unfold run, step, bind, get_self. rewrite Hm, Hgt. reflexivity.
Qed.

(** [step] when the timing computation raises: the direction and enable
    lines are already written, no pulse has been sent. *)
Lemma run_step_delay_error (st : state) (steps : Z) (cw : bool) (rpm : number)
    (e : exn) :
  (forall limit, max_rpm (motor st) = Some limit -> num_gt rpm limit = false) ->
  calculate_delay_from_rpm (motor st) rpm = Error e ->
  run (step steps cw rpm) st
  = (Raise e,
     mkState (motor st)
             (trace st ++ [GPIO_output direction_pin (if cw then HIGH else LOW);
                           GPIO_output enable_pin LOW])).
Proof.
  intros Hlim Hd. unfold run, step, bind, get_self.
  destruct (max_rpm (motor st)) as [limit|] eqn:Em.
  - rewrite (Hlim limit eq_refl). unfold ret at 1.
    destruct cw; unfold emit; cbn [motor trace]; rewrite Hd; unfold lift, raise;
      rewrite <- app_assoc; reflexivity.
  - unfold ret at 1.
    destruct cw; unfold emit; cbn [motor trace]; rewrite Hd; unfold lift, raise;
      rewrite <- app_assoc; reflexivity.
Qed.

Lemma gt_false_cases (st : state) (rpm : number) :
  (forall limit, max_rpm (motor st) = Some limit -> num_gt rpm limit = false)
  \/ exists limit, max_rpm (motor st) = Some limit /\ num_gt rpm limit = true.
Proof.
  destruct (max_rpm (motor st)) as [limit|].
  - destruct (num_gt rpm limit) eqn:E.
    + right. eauto.
    + left. intros l [= <-]. assumption.
  - left. intros l [=].
Qed.

(** A normal return of [step] is the run described by [run_step]. *)
Lemma run_step_return (st st' : state) (steps : Z) (cw : bool) (rpm : number) :
  run (step steps cw rpm) st = (Return tt, st') ->
  exists d,
    calculate_delay_from_rpm (motor st) rpm = Ok d
    /\ st' = mkState (update_times (Z.to_nat steps) cw (motor st))
                     (trace st ++ step_events (motor st) steps cw d).
Proof.
  intros H.
  destruct (gt_false_cases st rpm) as [Hlim|(limit & Hm & Hgt)].
  - destruct (calculate_delay_from_rpm (motor st) rpm) as [d|e] eqn:E.
    + destruct (Z_le_gt_dec steps 0) as [Hs|Hs].
      * rewrite (run_step st steps cw rpm d Hlim E (or_introl Hs)) in H.
        exists d. split; [reflexivity|]. congruence.
      * destruct (sleep_rejects d) eqn:Er.
        -- rewrite (run_step_sleep_error st steps cw rpm d Hlim E) in H;
             [discriminate|lia|assumption].
        -- rewrite (run_step st steps cw rpm d Hlim E (or_intror Er)) in H.
           exists d. split; [reflexivity|]. congruence.
    + rewrite (run_step_delay_error st steps cw rpm e Hlim E) in H. discriminate.
  - rewrite (run_step_refused st steps cw rpm limit Hm Hgt) in H. discriminate.
Qed.

(** [step] never raises the speed error once its speed check has passed. *)
Lemma run_step_not_speed_error (st : state) (steps : Z) (cw : bool) (rpm : number) :
  (forall limit, max_rpm (motor st) = Some limit -> num_gt rpm limit = false) ->
  fst (run (step steps cw rpm) st) <> Raise SpeedExceeded.
Proof.
  intros Hlim.
  destruct (calculate_delay_from_rpm (motor st) rpm) as [d|e] eqn:E.
  - destruct (Z_le_gt_dec steps 0) as [Hs|Hs].
    + rewrite (run_step st steps cw rpm d Hlim E (or_introl Hs)). discriminate.
    + destruct (sleep_rejects d) eqn:Er.
      * rewrite (run_step_sleep_error st steps cw rpm d Hlim E); [|lia|assumption].
        discriminate.
      * rewrite (run_step st steps cw rpm d Hlim E (or_intror Er)). discriminate.
  - rewrite (run_step_delay_error st steps cw rpm e Hlim E). cbn [fst].
    destruct (calculate_delay_from_rpm_error _ _ _ E) as [-> | ->]; discriminate.
Qed.

(** There and back: [k] steps clockwise then [k] steps counterclockwise
    from any position in range. *)
Lemma step_there_and_back (st : state) (rpm : number) (k p : Z) :
  position st = Some p ->
  0 <= p < steps_per_revolution (motor st) ->
  0 <= k ->
  speed_accepted (motor st) rpm = true ->
  exists st1 st2,
    run (step k true rpm) st = (Return tt, st1)
    /\ run (step k false rpm) st1 = (Return tt, st2)
    /\ position st2 = Some p.
Proof.
  intros Hp Hr Hk Hacc.
  apply speed_accepted_inv in Hacc as (Hlim & d & Hd & Hs).
  pose proof (run_step st k true rpm d Hlim Hd (or_intror Hs)) as H1.
  set (st1 := mkState (update_times (Z.to_nat k) true (motor st))
                      (trace st ++ step_events (motor st) k true d)) in *.
  destruct (update_times_fields (Z.to_nat k) true (motor st)) as (Hn & Hm & _).
  assert (Hlim1 : forall limit, max_rpm (motor st1) = Some limit -> num_gt rpm limit = false).
  { unfold st1; cbn [motor]. rewrite Hm. exact Hlim. }
  assert (Hd1 : calculate_delay_from_rpm (motor st1) rpm = Ok d).
  { rewrite <- Hd. apply calculate_delay_from_rpm_ext. exact Hn. }
  pose proof (run_step st1 k false rpm d Hlim1 Hd1 (or_intror Hs)) as H2.
  exists st1. eexists. split; [exact H1|]. split; [exact H2|].
  unfold position; cbn [motor].
  assert (Hp1 : steps_from_home (motor st1)
                = Some ((p + k) mod steps_per_revolution (motor st))).
  { unfold st1; cbn [motor].
    rewrite (update_times_mod _ true (motor st) p Hp Hr).
    rewrite Z2Nat.id by lia. reflexivity. }
  assert (Hr1 : 0 <= (p + k) mod steps_per_revolution (motor st)
                < steps_per_revolution (motor st1)).
  { unfold st1; cbn [motor]. rewrite Hn. apply Z.mod_pos_bound. lia. }
  rewrite (update_times_mod _ false (motor st1) _ Hp1 Hr1).
  rewrite Z2Nat.id by lia. unfold st1 at 1; cbn [motor]. rewrite Hn.
  rewrite Zminus_mod_idemp_l. f_equal.
  replace (p + k - k) with p by lia. apply Z.mod_small. assumption.
Qed.

(** ** [go_to_position] *)

Lemma run_go_to_position_steps (st : state) (cw : bool) (rpm : number)
    (current target : Z) :
  position st = Some current ->
  run (go_to_position cw rpm (Some target) None) st
  = if target =? current then (Return tt, st)
    else if (target <? 0) || (target >? steps_per_revolution (motor st) - 1)
    then (Raise StepsOutOfRange, st)
    else run (step (distance (steps_per_revolution (motor st)) current target cw)
                   cw rpm) st.
Proof.
  unfold position. intros Hc.
  unfold run, go_to_position, bind, get_self. rewrite Hc.
  destruct (target =? current); [reflexivity|].
  destruct ((target <? 0) || (target >? steps_per_revolution (motor st) - 1));
    [reflexivity|].
  unfold distance. destruct cw; destruct (target >? current); reflexivity.
Qed.

Lemma run_go_to_position_degree (st : state) (cw : bool) (rpm : number)
    (current : Z) (degree : number) :
  position st = Some current ->
  run (go_to_position cw rpm None (Some degree)) st
  = match steps_of_degree (motor st) degree with
    | Ok target => run (go_to_position cw rpm (Some target) None) st
    | Error e => (Raise e, st)
    end.
Proof.
  unfold position. intros Hc.
  unfold run, go_to_position, bind, get_self. rewrite Hc.
  destruct (steps_of_degree (motor st) degree) as [t|e]; reflexivity.
Qed.

Lemma run_go_to_position_no_target (st : state) (cw : bool) (rpm : number)
    (current : Z) :
  position st = Some current ->
  run (go_to_position cw rpm None None) st = (Raise NoTarget, st).
Proof.
  unfold position, run, go_to_position, bind, get_self. intros ->. reflexivity.
Qed.

Lemma run_go_to_position_both (st : state) (cw : bool) (rpm : number)
    (current t : Z) (d : number) :
  position st = Some current ->
  run (go_to_position cw rpm (Some t) (Some d)) st = (Raise BothTargets, st).
Proof.
  unfold position, run, go_to_position, bind, get_self. intros ->. reflexivity.
Qed.

(** An in-range target other than the current position, at an accepted
    speed: the run of [go_to_position]. *)
Lemma run_go_to_position_moves (st : state) (cw : bool) (rpm : number)
    (current target : Z) (d : spec_float) :
  position st = Some current ->
  0 <= current < steps_per_revolution (motor st) ->
  0 <= target < steps_per_revolution (motor st) ->
  target <> current ->
  (forall limit, max_rpm (motor st) = Some limit -> num_gt rpm limit = false) ->
  calculate_delay_from_rpm (motor st) rpm = Ok d ->
  sleep_rejects d = false ->
  let dist := distance (steps_per_revolution (motor st)) current target cw in
  let st' := mkState (update_times (Z.to_nat dist) cw (motor st))
                     (trace st ++ step_events (motor st) dist cw d) in
  run (go_to_position cw rpm (Some target) None) st = (Return tt, st')
  /\ position st' = Some target
  /\ pulses (trace st') = pulses (trace st) + dist.
Proof.
  intros Hp Hc Ht Hne Hlim Hd Hs dist st'.
  pose proof (distance_bounds _ _ _ cw Hc Ht Hne) as Hb. fold dist in Hb.
  split; [|split].
  - rewrite (run_go_to_position_steps st cw rpm current target Hp).
    destruct (Z.eqb_spec target current); [contradiction|].
    destruct (Z.ltb_spec target 0); [lia|].
    destruct (Z.gtb_spec target (steps_per_revolution (motor st) - 1)); [lia|].
    cbn [orb]. apply run_step; auto.
  - unfold position, st'; cbn [motor].
    rewrite (update_times_mod _ cw (motor st) current Hp Hc).
    rewrite Z2Nat.id by lia. f_equal.
    apply distance_reaches; assumption.
  - unfold st'; cbn [trace]. rewrite pulses_app, pulses_step_events. lia.
Qed.

(** A step-index target in range at an accepted speed: the call returns
    with the motor on the target. *)
Lemma go_to_position_steps_returns
    (st : state) (cw : bool) (rpm : number) (current target : Z) :
  position st = Some current ->
  0 <= current < steps_per_revolution (motor st) ->
  0 <= target < steps_per_revolution (motor st) ->
  speed_accepted (motor st) rpm = true ->
  exists st',
    run (go_to_position cw rpm (Some target) None) st = (Return tt, st')
    /\ position st' = Some target.
Proof.
  intros Hp Hc Ht Hacc.
  destruct (Z.eq_dec target current) as [->|Hne].
  - exists st. rewrite (run_go_to_position_steps st cw rpm current current Hp).
    rewrite Z.eqb_refl. auto.
  - apply speed_accepted_inv in Hacc as (Hlim & d & Hd & Hs).
    destruct (run_go_to_position_moves st cw rpm current target d
                Hp Hc Ht Hne Hlim Hd Hs) as (Hrun & Hpos & _).
    eauto.
Qed.

(** A normal return of [go_to_position] that changed the position sent
    between 1 and [n - 1] pulses. *)
Lemma go_to_position_return_bounds (st st' : state) (cw : bool) (rpm : number)
    (srh : option Z) (degree : option number) (current : Z) :
  position st = Some current ->
  0 <= current < steps_per_revolution (motor st) ->
  run (go_to_position cw rpm srh degree) st = (Return tt, st') ->
  position st' <> Some current ->
  1 <= pulses (trace st') - pulses (trace st) <= steps_per_revolution (motor st) - 1.
Proof.
  intros Hp Hc Hrun Hne.
  assert (Hidx : forall target,
            run (go_to_position cw rpm (Some target) None) st = (Return tt, st') ->
            1 <= pulses (trace st') - pulses (trace st)
              <= steps_per_revolution (motor st) - 1).
  { intros target H.
    rewrite (run_go_to_position_steps st cw rpm current target Hp) in H.
    destruct (Z.eqb_spec target current) as [E|Hd].
    { injection H as <-. contradiction. }
    destruct (Z.ltb_spec target 0); [discriminate|].
    destruct (Z.gtb_spec target (steps_per_revolution (motor st) - 1));
      [discriminate|].
    cbn [orb] in H. apply run_step_return in H as (d & _ & ->). cbn [trace].
    rewrite pulses_app, pulses_step_events.
    pose proof (distance_bounds (steps_per_revolution (motor st)) current target cw).
    lia. }
  destruct srh as [t|], degree as [d|].
  - rewrite (run_go_to_position_both st cw rpm current t d Hp) in Hrun. discriminate.
  - apply (Hidx t Hrun).
  - rewrite (run_go_to_position_degree st cw rpm current d Hp) in Hrun.
    destruct (steps_of_degree (motor st) d) as [t|e]; [|discriminate].
    apply (Hidx t Hrun).
  - rewrite (run_go_to_position_no_target st cw rpm current Hp) in Hrun. discriminate.
Qed.

(** * The claims on the position and motion model *)

(** C1. With home set at [current] in [0, N) and a step-index target in
    [0, N): when the target is the current position, [go_to_position]
    returns with the state untouched (no pulse, no write, whatever the rpm);
    otherwise, at a speed [step] accepts, it runs [step] to its end with
    exactly [distance] steps in the caller's direction (clockwise:
    [target - current] if [target > current], else [N - current + target];
    counterclockwise: [current + (N - target)] if [target > current], else
    [current - target]), the direction line being written once for that
    direction, and [steps_from_home] is the target afterwards. *)
Theorem go_to_position_reaches_target
    (st : state) (cw : bool) (rpm : number) (current target : Z) :
  position st = Some current ->
  0 <= current < steps_per_revolution (motor st) ->
  0 <= target < steps_per_revolution (motor st) ->
  (target = current ->
   run (go_to_position cw rpm (Some target) None) st = (Return tt, st))
  /\ (target <> current ->
      speed_accepted (motor st) rpm = true ->
      let dist := distance (steps_per_revolution (motor st)) current target cw in
      exists st',
        run (go_to_position cw rpm (Some target) None) st = (Return tt, st')
        /\ position st' = Some target
        /\ motor st' = update_times (Z.to_nat dist) cw (motor st)
        /\ (exists d, trace st' = trace st ++ step_events (motor st) dist cw d)
        /\ pulses (trace st') = pulses (trace st) + dist).
Proof.
  intros Hp Hc Ht. split.
  - intros ->. rewrite (run_go_to_position_steps st cw rpm current current Hp).
    rewrite Z.eqb_refl. reflexivity.
  - intros Hne Hacc dist.
    apply speed_accepted_inv in Hacc as (Hlim & d & Hd & Hs).
    destruct (run_go_to_position_moves st cw rpm current target d
                Hp Hc Ht Hne Hlim Hd Hs) as (Hrun & Hpos & Hpul).
    eexists. split; [exact Hrun|]. split; [exact Hpos|].
    cbn [motor trace]. split; [reflexivity|]. split; [|exact Hpul].
    exists d. reflexivity.
Qed.

(** C2. On a motor with 200 steps per revolution and home set, at a speed
    [step] accepts, [go_to_position] with [degree=90] (the int, or the float
    90.0) resolves the angle to step 50, returns and leaves the motor on
    step 50; with [degree=91] (int or float) it raises the error for an
    angle that is not a multiple of the step angle and changes nothing. *)
Theorem go_to_position_degree_90_and_91
    (st : state) (cw : bool) (rpm : number) (current : Z) :
  steps_per_revolution (motor st) = 200 ->
  position st = Some current ->
  0 <= current < 200 ->
  speed_accepted (motor st) rpm = true ->
  (steps_of_degree (motor st) (Int 90) = Ok 50
   /\ steps_of_degree (motor st) (Float (S754_finite false 6333186975989760 (-46)))
      = Ok 50
   /\ exists st',
        run (go_to_position cw rpm None (Some (Int 90))) st = (Return tt, st')
        /\ position st' = Some 50)
  /\ (steps_of_degree (motor st) (Int 91) = Error NotAStepMultiple
      /\ steps_of_degree (motor st) (Float (S754_finite false 6403555720167424 (-46)))
         = Error NotAStepMultiple
      /\ run (go_to_position cw rpm None (Some (Int 91))) st
         = (Raise NotAStepMultiple, st)).
Proof.
  intros Hn Hp Hc Hacc.
  assert (E : forall d, steps_of_degree (motor st) d
                        = steps_of_degree (mkMotor 200 None true None) d).
  { intros d. apply steps_of_degree_ext. exact Hn. }
  assert (E90 : steps_of_degree (motor st) (Int 90) = Ok 50).
  { rewrite E. vm_compute. reflexivity. }
  assert (E91 : steps_of_degree (motor st) (Int 91) = Error NotAStepMultiple).
  { rewrite E. vm_compute. reflexivity. }
  split; [split; [exact E90|split]|split; [exact E91|split]].
  - rewrite E. vm_compute. reflexivity.
  - rewrite (run_go_to_position_degree st cw rpm current (Int 90) Hp), E90.
    apply (go_to_position_steps_returns st cw rpm current 50 Hp);
      try assumption; lia.
  - rewrite E. vm_compute. reflexivity.
  - rewrite (run_go_to_position_degree st cw rpm current (Int 91) Hp), E91.
    reflexivity.
Qed.

(** C3, on the code. With home set, [degree=360] is never accepted. It
    passes the range check on the angle; then either the check for a multiple
    of the step angle refuses it, or it is converted to the step index [N],
    which the range check on the step index refuses, whatever the position:
    for every [0 < N < 2 ^ 49] the call raises one of these two errors and
    changes nothing. With 200 steps per revolution the angle resolves to
    step 200 and the error is the [IndexError] on the step index. *)
Theorem go_to_position_degree_360_raises
    (st : state) (cw : bool) (rpm : number) (current : Z) :
  0 < steps_per_revolution (motor st) < 2 ^ 49 ->
  position st = Some current ->
  0 <= current < steps_per_revolution (motor st) ->
  (run (go_to_position cw rpm None (Some (Int 360))) st
   = (Raise StepsOutOfRange, st)
   \/ run (go_to_position cw rpm None (Some (Int 360))) st
      = (Raise NotAStepMultiple, st))
  /\ (steps_per_revolution (motor st) = 200 ->
      steps_of_degree (motor st) (Int 360) = Ok 200
      /\ run (go_to_position cw rpm None (Some (Int 360))) st
         = (Raise StepsOutOfRange, st)).
Proof.
  intros Hn Hp Hc.
  assert (Hidx : steps_of_degree (motor st) (Int 360)
                 = Ok (steps_per_revolution (motor st)) ->
                 run (go_to_position cw rpm None (Some (Int 360))) st
                 = (Raise StepsOutOfRange, st)).
  { intros E.
    rewrite (run_go_to_position_degree st cw rpm current (Int 360) Hp), E.
    rewrite (run_go_to_position_steps st cw rpm current _ Hp).
    destruct (Z.eqb_spec (steps_per_revolution (motor st)) current); [lia|].
    destruct (Z.ltb_spec (steps_per_revolution (motor st)) 0); [lia|].
    destruct (Z.gtb_spec (steps_per_revolution (motor st))
                (steps_per_revolution (motor st) - 1)); [|lia].
    reflexivity. }
  split.
  - destruct (steps_of_degree_360 (motor st) Hn) as [E|E].
    + left. apply Hidx, E.
    + right. rewrite (run_go_to_position_degree st cw rpm current (Int 360) Hp), E.
      reflexivity.
  - intros H200.
    assert (E : steps_of_degree (motor st) (Int 360) = Ok 200).
    { rewrite (steps_of_degree_ext _ (mkMotor 200 None true None)) by exact H200.
      vm_compute. reflexivity. }
    split; [exact E|]. apply Hidx. rewrite E, H200. reflexivity.
Qed.

(** C5. When [max_rpm] is set and the requested rpm is above it, [step]
    raises the speed error with the state untouched: no pulse, same
    [steps_from_home]. When [max_rpm] is unset, or the requested rpm is at
    most [max_rpm], [step] does not raise that error. *)
Theorem step_speed_exceeded
    (st : state) (steps : Z) (cw : bool) (rpm : number) :
  (forall limit, max_rpm (motor st) = Some limit -> num_gt rpm limit = true ->
     run (step steps cw rpm) st = (Raise SpeedExceeded, st)
     /\ pulses (trace (snd (run (step steps cw rpm) st))) = pulses (trace st)
     /\ position (snd (run (step steps cw rpm) st)) = position st)
  /\ ((max_rpm (motor st) = None
       \/ exists limit, max_rpm (motor st) = Some limit /\ num_le rpm limit = true) ->
      fst (run (step steps cw rpm) st) <> Raise SpeedExceeded).
Proof.
  split.
  - intros limit Hm Hgt.
    rewrite (run_step_refused st steps cw rpm limit Hm Hgt). auto.
  - intros H. apply run_step_not_speed_error.
    intros limit Hm. destruct H as [H|(l & Hl & Hle)].
    + congruence.
    + apply le_not_gt. congruence.
Qed.

(** C6. For every [N > 0], from a state with home set and [steps_from_home]
    in [0, N), after every call of any sequence of [update_position] calls,
    in any mix of directions, [steps_from_home] is set and in [0, N). *)
Theorem update_position_keeps_range (st : state) (dirs : list bool) :
  0 < steps_per_revolution (motor st) ->
  home_in_range (motor st) ->
  Forall (fun s => home_in_range (motor s)) (observations dirs st).
Proof.
  intros _ H. apply observations_in_range. assumption.
Qed.

(** C7. For [N > 0], [0 < k < N] and a speed [step] accepts: after
    [set_current_position_as_home], [step(k, clockwise)] followed by
    [step(k, counterclockwise)] both return and leave [steps_from_home] at
    the value it had before the two calls, which is 0. *)
Theorem step_round_trip_from_home (st : state) (rpm : number) (k : Z) :
  0 < steps_per_revolution (motor st) ->
  0 < k < steps_per_revolution (motor st) ->
  speed_accepted (motor st) rpm = true ->
  let st0 := snd (run set_current_position_as_home st) in
  exists st1 st2,
    run (step k true rpm) st0 = (Return tt, st1)
    /\ run (step k false rpm) st1 = (Return tt, st2)
    /\ position st2 = position st0
    /\ position st0 = Some 0.
Proof.
  intros Hn Hk Hacc st0.
  assert (H0 : position st0 = Some 0) by reflexivity.
  destruct (step_there_and_back st0 rpm k 0 H0) as (st1 & st2 & H1 & H2 & H3).
  - unfold st0; cbn. lia.
  - lia.
  - exact Hacc.
  - exists st1, st2. rewrite H0. auto.
Qed.

(** C9. With home set in range, an absolute move whose target differs from
    the current position sends at least 1 and at most [N - 1] pulses: for a
    step-index target in [0, N) at an accepted speed the call returns and the
    bound holds, and the bound holds for every call of [go_to_position], by
    index or by angle, that returns with the position changed. *)
Theorem go_to_position_pulse_count_bounds
    (st : state) (cw : bool) (rpm : number) (current : Z) :
  position st = Some current ->
  0 <= current < steps_per_revolution (motor st) ->
  (forall target,
     0 <= target < steps_per_revolution (motor st) ->
     target <> current ->
     speed_accepted (motor st) rpm = true ->
     exists st',
       run (go_to_position cw rpm (Some target) None) st = (Return tt, st')
       /\ 1 <= pulses (trace st') - pulses (trace st)
            <= steps_per_revolution (motor st) - 1)
  /\ (forall srh degree st',
        run (go_to_position cw rpm srh degree) st = (Return tt, st') ->
        position st' <> Some current ->
        1 <= pulses (trace st') - pulses (trace st)
          <= steps_per_revolution (motor st) - 1).
Proof.
  intros Hp Hc. split.
  - intros target Ht Hne Hacc.
    apply speed_accepted_inv in Hacc as (Hlim & d & Hd & Hs).
    destruct (run_go_to_position_moves st cw rpm current target d
                Hp Hc Ht Hne Hlim Hd Hs) as (Hrun & _ & Hpul).
    eexists. split; [exact Hrun|].
    pose proof (distance_bounds (steps_per_revolution (motor st))
                  current target cw Hc Ht Hne).
    lia.
  - intros srh degree st' Hrun Hne.
    eapply go_to_position_return_bounds; eassumption.
Qed.

(** C10. [step] with a step count of zero or below, at a speed that passes
    the speed check and the timing computation, returns without an error,
    sends no pulse and leaves the motor object, [steps_from_home] included,
    as it was: the count is not checked, a negative count is an empty
    loop. *)
Theorem step_non_positive_count
    (st : state) (steps : Z) (cw : bool) (rpm : number) :
  steps <= 0 ->
  timing_computed (motor st) rpm = true ->
  exists st',
    run (step steps cw rpm) st = (Return tt, st')
    /\ pulses (trace st') = pulses (trace st)
    /\ motor st' = motor st
    /\ position st' = position st.
Proof.
  intros Hs Hacc.
  apply timing_computed_inv in Hacc as (Hlim & d & Hd).
  eexists. split; [apply (run_step st steps cw rpm d Hlim Hd (or_introl Hs))|].
  cbn [motor trace]. unfold position; cbn [motor].
  rewrite pulses_app, pulses_step_events.
  replace (Z.to_nat steps) with O by lia. cbn [update_times].
  split; [lia|]. split; reflexivity.
Qed.

End Runs.

(** * Further properties of the methods *)

(** ** Angles *)

Lemma num_compare_int_r (x : number) (a : Z) :
  num_compare x (Int a) = option_map CompOpp (num_compare (Int a) x).
Proof.
  destruct x as [z|f]; cbn [num_compare option_map]; [|reflexivity].
  f_equal. apply Z.compare_antisym.
Qed.

Lemma num_compare_int_defined (a : Z) (f : spec_float) :
  f <> S754_nan -> exists c, num_compare (Int a) (Float f) = Some c.
Proof.
  intros Hf. destruct f as [s|s| |s m e]; cbn [num_compare compare_int_float];
    eauto. contradiction.
Qed.

(** NaN passes the range check of [go_to_position] and is stopped by
    [int()]. *)
Lemma steps_of_degree_nan (self : StepperMotor) :
  exists e, steps_of_degree self (Float S754_nan) = Error e.
Proof.
  unfold steps_of_degree.
  change (num_lt (Float S754_nan) (Int 0) || num_gt (Float S754_nan) (Int 360))
    with false. cbv iota.
  destruct (truediv (Int 360) (Int (steps_per_revolution self))) as [sa|e];
    cbn [result_bind]; [|eauto].
  cbn [truediv]. unfold float_truediv.
  destruct (is_zero sa); cbn [result_bind]; [eauto|].
  replace (SFdiv prec emax S754_nan sa) with S754_nan by (destruct sa; reflexivity).
  cbn [int_of_float result_bind]. eauto.
Qed.

Lemma steps_of_degree_range_check (self : StepperMotor) (degree : number) (i : Z) :
  steps_of_degree self degree = Ok i ->
  num_le (Int 0) degree = true /\ num_le degree (Int 360) = true.
Proof.
  intros H.
  assert (Hc : exists c, num_compare (Int 0) degree = Some c).
  { destruct degree as [z|f]; [cbn; eauto|].
    apply num_compare_int_defined. intros ->.
    destruct (steps_of_degree_nan self) as (e & He). congruence. }
  assert (Hc' : exists c, num_compare (Int 360) degree = Some c).
  { destruct degree as [z|f]; [cbn; eauto|].
    apply num_compare_int_defined. intros ->.
    destruct (steps_of_degree_nan self) as (e & He). congruence. }
  unfold steps_of_degree in H.
  destruct (num_lt degree (Int 0) || num_gt degree (Int 360)) eqn:E; [discriminate|].
  apply orb_false_iff in E as [E1 E2].
  unfold num_lt, num_gt, num_le in *.
  rewrite (num_compare_int_r degree 0) in E1.
  rewrite (num_compare_int_r degree 360) in E2 |- *.
  destruct Hc as (c & Hc), Hc' as (c' & Hc'). rewrite Hc in *. rewrite Hc' in *.
  cbn [option_map] in *.
  split; [destruct c|destruct c']; cbn [CompOpp] in *; congruence.
Qed.

(** The arithmetic of dividing an angle by a step angle that was itself
    rounded: an integral quotient is the exact one. *)
Lemma angle_quotient (ma mq n i d c g K1 K2 W S1 : Z) :
  0 < n < 2 ^ 40 -> 0 <= i -> 0 < d <= 360 ->
  0 < c -> 0 < g -> 0 < K1 -> 0 < K2 -> 0 < W ->
  0 < ma < 2 ^ 53 ->
  n * c < 2 ^ 53 ->
  S1 * c = 2 ^ 97 ->
  W * K2 = c * K1 * g ->
  mq = i * W ->
  Z.abs (ma * K1 * n - 360 * S1) <= 3 * n ->
  Z.abs (mq * K2 * ma - d * g * 2 ^ 44 * 2 ^ 53) <= 3 * ma ->
  360 * i = d * n.
Proof.
  intros Hn Hi Hd Hc Hg HK1 HK2 HW Hma Hnc HS HWK Hmq E1 E2.
  set (Y := i * c * K1 * ma).
  assert (HY : mq * K2 * ma = Y * g).
  { unfold Y. rewrite Hmq.
    replace (i * W * K2 * ma) with (i * (W * K2) * ma) by ring.
    rewrite HWK. ring. }
  rewrite HY in E2.
  assert (E2' : Z.abs (Y - d * 2 ^ 97) <= 3 * ma).
  { replace (Y * g - d * g * 2 ^ 44 * 2 ^ 53) with ((Y - d * 2 ^ 97) * g) in E2.
    2:{ change (2 ^ 97) with (2 ^ 44 * 2 ^ 53). ring. }
    rewrite Z.abs_mul, (Z.abs_eq g) in E2 by lia.
    pose proof (Z.abs_nonneg (Y - d * 2 ^ 97)). nia. }
  assert (F1 : Z.abs (Y * n - i * 360 * 2 ^ 97) <= 3 * n * (i * c)).
  { replace (Y * n - i * 360 * 2 ^ 97)
      with ((ma * K1 * n - 360 * S1) * (i * c)).
    2:{ unfold Y. rewrite <- HS. ring. }
    rewrite Z.abs_mul, (Z.abs_eq (i * c)) by nia.
    apply Z.mul_le_mono_nonneg_r; [nia|assumption]. }
  assert (F2 : Z.abs (Y * n - d * n * 2 ^ 97) <= 3 * ma * n).
  { replace (Y * n - d * n * 2 ^ 97) with ((Y - d * 2 ^ 97) * n) by ring.
    rewrite Z.abs_mul, (Z.abs_eq n) by lia.
    apply Z.mul_le_mono_nonneg_r; [lia|assumption]. }
  assert (F3 : Z.abs ((360 * i - d * n) * 2 ^ 97)
               <= 3 * n * (i * c) + 3 * ma * n).
  { replace ((360 * i - d * n) * 2 ^ 97)
      with ((Y * n - d * n * 2 ^ 97) - (Y * n - i * 360 * 2 ^ 97)) by ring.
    eapply Z.le_trans; [apply Z.abs_triangle|].
    rewrite Z.abs_opp. lia. }
  assert (F4 : 3 * n * (i * c) <= 3 * 2 ^ 53 * i).
  { replace (3 * n * (i * c)) with (3 * (n * c) * i) by ring.
    apply Z.mul_le_mono_nonneg_r; lia. }
  assert (F5 : 3 * ma * n <= 3 * 2 ^ 53 * n).
  { apply Z.mul_le_mono_nonneg_r; lia. }
  rewrite Z.abs_mul, (Z.abs_eq (2 ^ 97)) in F3 by lia.
  change (2 ^ 97) with (2 ^ 44 * 2 ^ 53) in F3.
  assert (F6 : Z.abs (360 * i - d * n) * 2 ^ 44 <= 3 * i + 3 * n).
  { apply Z.mul_le_mono_pos_r with (p := 2 ^ 53); [lia|].
    replace (Z.abs (360 * i - d * n) * 2 ^ 44 * 2 ^ 53)
      with (Z.abs (360 * i - d * n) * (2 ^ 44 * 2 ^ 53)) by ring.
    lia. }
  assert (F7 : 0 <= d * n <= 360 * n) by nia.
  change (2 ^ 40) with 1099511627776 in Hn.
  change (2 ^ 44) with 17592186044416 in F6.
  lia.
Qed.

(** With fewer than [2 ^ 40] steps per revolution, an int angle that the
    multiple check lets through is converted to the exact step index. *)
Lemma steps_of_degree_int_sound (self : StepperMotor) (d i : Z) :
  0 < steps_per_revolution self < 2 ^ 40 ->
  steps_of_degree self (Int d) = Ok i ->
  0 <= d <= 360 /\ 360 * i = d * steps_per_revolution self.
Proof.
  intros Hn H.
  assert (Hr : 0 <= d <= 360).
  { destruct (steps_of_degree_range_check self (Int d) i H) as [H0 H360].
    unfold num_le in H0, H360. cbn [num_compare] in H0, H360.
    destruct (Z.compare_spec 0 d); destruct (Z.compare_spec d 360);
      try discriminate; lia. }
  split; [exact Hr|].
  unfold steps_of_degree in H.
  set (n := steps_per_revolution self) in *.
  destruct (num_lt (Int d) (Int 0) || num_gt (Int d) (Int 360)); [discriminate|].
  destruct n as [|pn|pn] eqn:En; try lia.
  pose proof (Zdigits2_pos (Zpos pn) eq_refl) as Hd0.
  assert (Hdn : Zdigits2 (Zpos pn) <= 40) by (apply Zdigits2_le; lia).
  set (dn := Zdigits2 (Zpos pn)) in *.
  (* step_angle = 360 / N *)
  destruct (SFdiv_normal 360 pn 0 0) as (ma & k1 & Ha & Hk1 & Hma & E1).
  { change (Zdigits2 360) with 9. fold dn. lia. }
  { change (Zdigits2 360) with 9. fold dn. lia. }
  change (Zdigits2 360) with 9 in Ha, E1. fold dn in Ha, E1.
  cbn [truediv] in H. unfold int_truediv in H.
  change (Zpos pn =? 0) with false in H.
  cbn [raw_of_int] in H. rewrite Ha in H. cbn [result_bind] in H.
  destruct d as [|pd|pd]; try lia.
  - (* degree 0 *)
    change (float_of_int 0) with (Ok (S754_zero false)) in H.
    cbn in H. injection H as <-. reflexivity.
  - (* degree / step_angle *)
    destruct (float_of_int_exact (Zpos pd)) as (md & Hf & Hmd & Hmdb).
    { change (2 ^ 53) with 9007199254740992. lia. }
    pose proof (Zdigits2_pos (Zpos pd) eq_refl) as Hdd0.
    assert (Hdd : Zdigits2 (Zpos pd) <= 9).
    { apply Zdigits2_le; [lia|]. change (2 ^ 9) with 512. lia. }
    set (dd := Zdigits2 (Zpos pd)) in *.
    rewrite Hf in H. cbn [result_bind] in H.
    unfold float_truediv in H. cbn [is_zero result_bind] in H.
    assert (Hda : Zdigits2 (Zpos ma) = 53) by (apply Zdigits2_eq; simpl; lia).
    assert (Hdm : Zdigits2 (Zpos md) = 53) by (apply Zdigits2_eq; simpl; lia).
    destruct (SFdiv_normal md ma (dd - 53) (9 + 0 - (dn + 0) - 53 + k1))
      as (mq & k2 & Hq & Hk2 & Hmq & E2).
    { rewrite Hda, Hdm. lia. }
    { rewrite Hda, Hdm. lia. }
    rewrite Hda, Hdm in Hq, E2.
    rewrite Hq in H.
    set (e_q := 53 + (dd - 53) - (53 + (9 + 0 - (dn + 0) - 53 + k1)) - 53 + k2) in *.
    assert (Heq : e_q = - (62 + k1 - k2 - dd - dn)) by (unfold e_q; lia).
    destruct e_q as [|pe|pe] eqn:Ee; try lia.
    cbn [int_of_float result_bind] in H.
    set (q := Zpos mq / 2 ^ Zpos pe) in *.
    unfold num_ne, num_eq in H.
    cbn [num_compare option_map compare_int_float] in H.
    destruct (Z.compare_spec (q * 2 ^ Zpos pe) (Zpos mq)) as [Hcmp|Hcmp|Hcmp];
      cbn [CompOpp negb] in H; try discriminate.
    injection H as <-.
    assert (HW : 0 < 2 ^ Zpos pe) by (apply Z.pow_pos_nonneg; lia).
    assert (Hi : 0 <= q) by (apply Z.div_pos; lia).
    assert (HPe : Zpos pe = 62 + k1 - k2 - dd - dn) by lia.
    assert (Hc : 0 < 2 ^ (53 - dn)) by (apply Z.pow_pos_nonneg; lia).
    assert (Hg : 0 < 2 ^ (9 - dd)) by (apply Z.pow_pos_nonneg; lia).
    assert (HK1 : 0 < 2 ^ k1) by (apply Z.pow_pos_nonneg; lia).
    assert (HK2 : 0 < 2 ^ k2) by (apply Z.pow_pos_nonneg; lia).
    assert (Hnc : Zpos pn * 2 ^ (53 - dn) < 2 ^ 53).
    { pose proof (Zdigits2_bounds (Zpos pn) eq_refl) as [_ Hu]. fold dn in Hu.
      assert (2 ^ dn * 2 ^ (53 - dn) = 2 ^ 53).
      { rewrite <- Z.pow_add_r by lia. f_equal. lia. }
      nia. }
    assert (HS : 2 ^ (44 + dn) * 2 ^ (53 - dn) = 2 ^ 97).
    { rewrite <- Z.pow_add_r by lia. f_equal. lia. }
    assert (HWK : 2 ^ Zpos pe * 2 ^ k2 = 2 ^ (53 - dn) * 2 ^ k1 * 2 ^ (9 - dd)).
    { rewrite HPe, <- !Z.pow_add_r by lia. f_equal. lia. }
    replace (53 - 9 + dn) with (44 + dn) in E1 by lia.
    replace (53 - 53 + 53) with 53 in E2 by lia.
    assert (Hmd' : Zpos md = Zpos pd * 2 ^ (9 - dd) * 2 ^ 44).
    { rewrite Hmd. rewrite <- Z.mul_assoc, <- Z.pow_add_r by lia.
      f_equal. f_equal. lia. }
    rewrite Hmd' in E2.
    apply (angle_quotient (Zpos ma) (Zpos mq) (Zpos pn) q (Zpos pd)
             (2 ^ (53 - dn)) (2 ^ (9 - dd)) (2 ^ k1) (2 ^ k2) (2 ^ Zpos pe)
             (2 ^ (44 + dn))); try assumption; lia.
Qed.

(** With fewer than [2 ^ 1000] steps per revolution, the angle zero, as an
    int or as a float of either sign, is the step index 0. *)
Lemma steps_of_degree_zero_index (self : StepperMotor) (degree : number) :
  0 < steps_per_revolution self < 2 ^ 1000 ->
  num_eq degree (Int 0) = true ->
  steps_of_degree self degree = Ok 0.
Proof.
  intros Hn Hz. unfold steps_of_degree.
  set (n := steps_per_revolution self) in *.
  destruct n as [|pn|pn] eqn:En; try lia.
  pose proof (Zdigits2_pos (Zpos pn) eq_refl) as Hd0.
  assert (Hdn : Zdigits2 (Zpos pn) <= 1000) by (apply Zdigits2_le; lia).
  destruct (SFdiv_normal 360 pn 0 0) as (ma & k1 & Ha & _).
  { change (Zdigits2 360) with 9. lia. }
  { change (Zdigits2 360) with 9. lia. }
  cbn [truediv]. unfold int_truediv. change (Zpos pn =? 0) with false.
  cbn [raw_of_int]. rewrite Ha.
  destruct (eq_zero_cases degree Hz) as [->|(s & ->)].
  - reflexivity.
  - destruct s; reflexivity.
Qed.

(** ** Runs of the other methods and of programs *)

Section MoreRuns.

Context {clock : Clock}.

(** ** Every way [step] can end *)

Lemma run_step_end (st : state) (steps : Z) (cw : bool) (rpm : number) :
  step_end st steps cw rpm (run (step steps cw rpm) st).
Proof.
  destruct (gt_false_cases st rpm) as [Hlim|(limit & Hm & Hgt)].
  - destruct (calculate_delay_from_rpm (motor st) rpm) as [d|e] eqn:E.
    + destruct (Z_le_gt_dec steps 0) as [Hs|Hs].
      * rewrite (run_step st steps cw rpm d Hlim E (or_introl Hs)).
        apply step_done; auto.
      * destruct (sleep_rejects d) eqn:Er.
        -- rewrite (run_step_sleep_error st steps cw rpm d Hlim E); [|lia|assumption].
           apply step_no_sleep; [assumption|assumption|lia|assumption].
        -- rewrite (run_step st steps cw rpm d Hlim E (or_intror Er)).
           apply step_done; auto.
    + rewrite (run_step_delay_error st steps cw rpm e Hlim E).
      apply step_no_delay; [assumption|exact E|].
      eapply calculate_delay_from_rpm_error, E.
  - rewrite (run_step_refused st steps cw rpm limit Hm Hgt).
    eapply step_refused; eassumption.
Qed.

(** X1. [step] returns exactly when the rpm passes the speed
    check, the delay is computed without an exception and, for a count
    above zero, [time.sleep] takes the delay. *)
Theorem step_returns_iff (st : state) (steps : Z) (cw : bool) (rpm : number) :
  fst (run (step steps cw rpm) st) = Return tt
  <-> timing_computed (motor st) rpm = true
      /\ (steps <= 0 \/ speed_accepted (motor st) rpm = true).
Proof.
  split.
  - intros H.
    destruct (run_step_end st steps cw rpm) as [| | |d Hlim Hd Hs];
      try discriminate.
    assert (Hl : match max_rpm (motor st) with
                 | Some limit => negb (num_gt rpm limit)
                 | None => true
                 end = true).
    { destruct (max_rpm (motor st)) as [limit|]; [|reflexivity].
      rewrite (Hlim limit eq_refl). reflexivity. }
    unfold timing_computed, speed_accepted. rewrite Hl, Hd. split; [reflexivity|].
    destruct Hs as [Hs|Hs]; [left; exact Hs|right]. rewrite Hs. reflexivity.
  - intros [Ht Hs]. apply timing_computed_inv in Ht as (Hlim & d & Hd).
    destruct Hs as [Hs|Hs].
    + rewrite (run_step st steps cw rpm d Hlim Hd (or_introl Hs)). reflexivity.
    + apply speed_accepted_inv in Hs as (_ & d' & Hd' & Hs).
      assert (d' = d) by congruence. subst d'.
      rewrite (run_step st steps cw rpm d Hlim Hd (or_intror Hs)). reflexivity.
Qed.

(** ** The position counter over whole moves *)

Lemma motor_eq (a b : StepperMotor) :
  steps_per_revolution a = steps_per_revolution b ->
  max_rpm a = max_rpm b ->
  hold_position a = hold_position b ->
  steps_from_home a = steps_from_home b ->
  a = b.
Proof. destruct a, b; simpl; intros; subst; reflexivity. Qed.

Lemma update_times_unset (k : nat) (cw : bool) (self : StepperMotor) :
  steps_from_home self = None -> update_times k cw self = self.
Proof.
  induction k as [|k IH]; intros H; cbn [update_times]; [reflexivity|].
  rewrite (update_position_self_unset self cw H). apply IH, H.
Qed.

Lemma update_times_in_range (k : nat) (cw : bool) :
  forall self, home_in_range self -> home_in_range (update_times k cw self).
Proof.
  induction k as [|k IH]; intros self H; cbn [update_times]; [assumption|].
  apply IH, update_position_self_in_range, H.
Qed.

Lemma speed_accepted_ext (a b : StepperMotor) (rpm : number) :
  steps_per_revolution a = steps_per_revolution b ->
  max_rpm a = max_rpm b ->
  speed_accepted a rpm = speed_accepted b rpm.
Proof.
  intros Hn Hm. unfold speed_accepted.
  rewrite Hm, (calculate_delay_from_rpm_ext a b rpm Hn). reflexivity.
Qed.

(** [step] with a count that is not negative, from a position in range. *)
Lemma run_step_counter (st : state) (k : Z) (cw : bool) (rpm : number) (p : Z) :
  position st = Some p ->
  0 <= p < steps_per_revolution (motor st) ->
  0 <= k ->
  speed_accepted (motor st) rpm = true ->
  exists st',
    run (step k cw rpm) st = (Return tt, st')
    /\ position st' = Some ((if cw then p + k else p - k)
                             mod steps_per_revolution (motor st))
    /\ pulses (trace st') = pulses (trace st) + k
    /\ steps_per_revolution (motor st') = steps_per_revolution (motor st)
    /\ max_rpm (motor st') = max_rpm (motor st)
    /\ hold_position (motor st') = hold_position (motor st).
Proof.
  intros Hp Hr Hk Hacc.
  apply speed_accepted_inv in Hacc as (Hlim & d & Hd & Hs).
  eexists. split; [apply (run_step st k cw rpm d Hlim Hd (or_intror Hs))|].
  cbn [motor trace]. unfold position; cbn [motor].
  destruct (update_times_fields (Z.to_nat k) cw (motor st)) as (Hn & Hm & Hh).
  split; [|split; [|auto]].
  - rewrite (update_times_mod _ cw (motor st) p Hp Hr), Z2Nat.id by lia.
    reflexivity.
  - rewrite pulses_app, pulses_step_events. lia.
Qed.

(** X2. From a position [p] in range, at a speed [step]
    accepts, [step] returns with the position at [p] plus or minus the
    count modulo [N], the count taken as zero when it is negative; it has
    sent that many pulses and left the configuration as it was. *)
Theorem step_moves_counter (st : state) (steps : Z) (cw : bool) (rpm : number)
    (p : Z) :
  position st = Some p ->
  0 <= p < steps_per_revolution (motor st) ->
  speed_accepted (motor st) rpm = true ->
  exists st',
    run (step steps cw rpm) st = (Return tt, st')
    /\ position st' = Some ((if cw then p + Z.max 0 steps else p - Z.max 0 steps)
                             mod steps_per_revolution (motor st))
    /\ pulses (trace st') = pulses (trace st) + Z.max 0 steps
    /\ steps_per_revolution (motor st') = steps_per_revolution (motor st)
    /\ max_rpm (motor st') = max_rpm (motor st)
    /\ hold_position (motor st') = hold_position (motor st).
Proof.
  intros Hp Hr Hacc.
  apply speed_accepted_inv in Hacc as (Hlim & d & Hd & Hs).
  eexists. split; [apply (run_step st steps cw rpm d Hlim Hd (or_intror Hs))|].
  cbn [motor trace]. unfold position; cbn [motor].
  destruct (update_times_fields (Z.to_nat steps) cw (motor st)) as (Hn & Hm & Hh).
  split; [|split; [|auto]].
  - rewrite (update_times_mod _ cw (motor st) p Hp Hr). f_equal. f_equal.
    destruct cw; lia.
  - rewrite pulses_app, pulses_step_events. lia.
Qed.

(** X3. Before home is marked, [step] at an accepted speed sends its pulses and
    leaves the object untouched: the position stays unset. A count below
    zero sends no pulse. *)
Theorem step_home_unset (st : state) (steps : Z) (cw : bool) (rpm : number) :
  position st = None ->
  speed_accepted (motor st) rpm = true ->
  exists st',
    run (step steps cw rpm) st = (Return tt, st')
    /\ motor st' = motor st
    /\ pulses (trace st') = pulses (trace st) + Z.max 0 steps.
Proof.
  intros Hp Hacc.
  apply speed_accepted_inv in Hacc as (Hlim & d & Hd & Hs).
  eexists. split; [apply (run_step st steps cw rpm d Hlim Hd (or_intror Hs))|].
  cbn [motor trace]. split.
  - apply update_times_unset. exact Hp.
  - rewrite pulses_app, pulses_step_events. reflexivity.
Qed.

(** X4. [do_one_rotation] from a position in range, at an accepted speed: [N]
    pulses are sent and the object, position included, is as before. *)
Theorem do_one_rotation_full_turn (st : state) (cw : bool) (rpm : number) :
  home_in_range (motor st) ->
  speed_accepted (motor st) rpm = true ->
  exists st',
    run (do_one_rotation cw rpm) st = (Return tt, st')
    /\ motor st' = motor st
    /\ pulses (trace st') = pulses (trace st) + steps_per_revolution (motor st).
Proof.
  intros (p & Hp & Hr) Hacc.
  destruct (run_step_counter st (steps_per_revolution (motor st)) cw rpm p
              Hp Hr ltac:(lia) Hacc) as (st' & Hrun & Hpos & Hpul & Hn & Hm & Hh).
  exists st'. split; [exact Hrun|]. split; [|exact Hpul].
  apply motor_eq; try assumption.
  unfold position in Hpos, Hp. rewrite Hpos, Hp. f_equal.
  destruct cw.
  - replace (p + steps_per_revolution (motor st))
      with (p + 1 * steps_per_revolution (motor st)) by lia.
    rewrite Z.mod_add by lia. apply Z.mod_small. exact Hr.
  - replace (p - steps_per_revolution (motor st))
      with (p + (-1) * steps_per_revolution (motor st)) by lia.
    rewrite Z.mod_add by lia. apply Z.mod_small. exact Hr.
Qed.

(** X5. [rotate] from a position in range, at an accepted speed: [rotations * N]
    pulses are sent and the object is as before; a number of rotations
    below zero sends no pulse. *)
Theorem rotate_whole_turns (st : state) (rotations : Z) (cw : bool) (rpm : number) :
  home_in_range (motor st) ->
  speed_accepted (motor st) rpm = true ->
  exists st',
    run (rotate rotations cw rpm) st = (Return tt, st')
    /\ motor st' = motor st
    /\ pulses (trace st')
       = pulses (trace st) + Z.max 0 rotations * steps_per_revolution (motor st).
Proof.
  intros (p & Hp & Hr) Hacc.
  destruct (Z_le_gt_dec 0 rotations) as [Hrot|Hrot].
  - destruct (run_step_counter st (rotations * steps_per_revolution (motor st))
                cw rpm p Hp Hr ltac:(nia) Hacc)
      as (st' & Hrun & Hpos & Hpul & Hn & Hm & Hh).
    exists st'. split; [exact Hrun|]. split; [|rewrite Hpul, Z.max_r by lia; reflexivity].
    apply motor_eq; try assumption.
    unfold position in Hpos, Hp. rewrite Hpos, Hp. f_equal.
    destruct cw.
    + rewrite Z.mod_add by lia. apply Z.mod_small. exact Hr.
    + replace (p - rotations * steps_per_revolution (motor st))
        with (p + (- rotations) * steps_per_revolution (motor st)) by lia.
      rewrite Z.mod_add by lia. apply Z.mod_small. exact Hr.
  - apply speed_accepted_inv in Hacc as (Hlim & d & Hd & Hs).
    eexists. split.
    { apply (run_step st (rotations * steps_per_revolution (motor st)) cw rpm d
               Hlim Hd). left. nia. }
    cbn [motor trace].
    replace (Z.to_nat (rotations * steps_per_revolution (motor st))) with O by nia.
    split; [reflexivity|].
    rewrite pulses_app, pulses_step_events. nia.
Qed.

(** X6. Two calls of [step] in a row, each in its own direction: the position
    ends on the sum of the two signed counts modulo [N], and the pulses
    add up. *)
Theorem step_then_step (st : state) (a b : Z) (cw1 cw2 : bool) (rpm1 rpm2 : number)
    (p : Z) :
  position st = Some p ->
  0 <= p < steps_per_revolution (motor st) ->
  0 <= a -> 0 <= b ->
  speed_accepted (motor st) rpm1 = true ->
  speed_accepted (motor st) rpm2 = true ->
  exists st1 st2,
    run (step a cw1 rpm1) st = (Return tt, st1)
    /\ run (step b cw2 rpm2) st1 = (Return tt, st2)
    /\ position st2
       = Some ((p + (if cw1 then a else - a) + (if cw2 then b else - b))
               mod steps_per_revolution (motor st))
    /\ pulses (trace st2) = pulses (trace st) + a + b.
Proof.
  intros Hp Hr Ha Hb Hacc1 Hacc2.
  destruct (run_step_counter st a cw1 rpm1 p Hp Hr Ha Hacc1)
    as (st1 & Hrun1 & Hpos1 & Hpul1 & Hn1 & Hm1 & Hh1).
  assert (Hacc2' : speed_accepted (motor st1) rpm2 = true).
  { rewrite (speed_accepted_ext (motor st1) (motor st) rpm2 Hn1 Hm1). exact Hacc2. }
  assert (Hr1 : 0 <= (if cw1 then p + a else p - a) mod steps_per_revolution (motor st)
                < steps_per_revolution (motor st1)).
  { rewrite Hn1. apply Z.mod_pos_bound. lia. }
  destruct (run_step_counter st1 b cw2 rpm2 _ Hpos1 Hr1 Hb Hacc2')
    as (st2 & Hrun2 & Hpos2 & Hpul2 & _).
  exists st1, st2. split; [exact Hrun1|]. split; [exact Hrun2|]. split; [|lia].
  rewrite Hpos2, Hn1. f_equal.
  destruct cw1, cw2.
  - rewrite Zplus_mod_idemp_l. f_equal; lia.
  - rewrite Zminus_mod_idemp_l. f_equal; lia.
  - rewrite Zplus_mod_idemp_l. f_equal; lia.
  - rewrite Zminus_mod_idemp_l. f_equal; lia.
Qed.

(** X7. At an rpm equal to zero that passes the speed check, [step] raises
    [ZeroDivisionError] whatever the count: the direction and enable
    lines have been written, no pulse is sent and the object is
    untouched. *)
Theorem step_zero_rpm (st : state) (steps : Z) (cw : bool) (rpm : number) :
  num_eq rpm (Int 0) = true ->
  (forall limit, max_rpm (motor st) = Some limit -> num_gt rpm limit = false) ->
  exists st',
    run (step steps cw rpm) st = (Raise ZeroDivisionError, st')
    /\ motor st' = motor st
    /\ pulses (trace st') = pulses (trace st)
    /\ trace st' = trace st ++ [GPIO_output direction_pin (if cw then HIGH else LOW);
                                GPIO_output enable_pin LOW].
Proof.
  intros Hz Hlim.
  assert (Hd : calculate_delay_from_rpm (motor st) rpm = Error ZeroDivisionError).
  { unfold calculate_delay_from_rpm.
    destruct (eq_zero_cases rpm Hz) as [->|(s & ->)]; reflexivity. }
  eexists. split; [apply (run_step_delay_error st steps cw rpm _ Hlim Hd)|].
  cbn [motor trace]. split; [reflexivity|]. split; [|reflexivity].
  rewrite pulses_app. destruct cw; change (pulses [_; _]) with 0; lia.
Qed.

(** ** Every way [go_to_position] can end *)

Lemma run_go_to_position_unset (st : state) (cw : bool) (rpm : number)
    (srh : option Z) (degree : option number) :
  position st = None ->
  run (go_to_position cw rpm srh degree) st = (Raise PositionUnknown, st).
Proof.
  unfold position, run, go_to_position, bind, get_self. intros ->. reflexivity.
Qed.

Lemma run_go_to_position_end (st : state) (cw : bool) (rpm : number)
    (srh : option Z) (degree : option number) :
  go_to_position_end st cw rpm srh degree
    (run (go_to_position cw rpm srh degree) st).
Proof.
  destruct (position st) as [current|] eqn:Hp.
  2:{ rewrite run_go_to_position_unset by exact Hp. apply go_unknown, Hp. }
  assert (Hidx : forall target,
            resolves (motor st) srh degree target ->
            go_to_position_end st cw rpm srh degree
              (run (go_to_position cw rpm (Some target) None) st)).
  { intros target Hres.
    rewrite (run_go_to_position_steps st cw rpm current target Hp).
    destruct (Z.eqb_spec target current) as [E|Hne].
    { subst target. eapply go_already_there; eassumption. }
    destruct (Z.ltb_spec target 0) as [Hl|Hl]; cbn [orb].
    { eapply go_out_of_range; eauto. }
    destruct (Z.gtb_spec target (steps_per_revolution (motor st) - 1)) as [Hg|Hg].
    { eapply go_out_of_range; eauto. }
    eapply go_move; eauto; lia. }
  destruct srh as [t|], degree as [d|].
  - rewrite (run_go_to_position_both st cw rpm current t d Hp).
    eapply go_both_targets; eauto.
  - apply Hidx. left. auto.
  - rewrite (run_go_to_position_degree st cw rpm current d Hp).
    destruct (steps_of_degree (motor st) d) as [t|e] eqn:E.
    + apply Hidx. right. split; [reflexivity|]. eauto.
    + eapply go_bad_degree; eauto.
  - rewrite (run_go_to_position_no_target st cw rpm current Hp).
    eapply go_no_target; eauto.
Qed.

Lemma run_go_to_position_resolved (st : state) (cw : bool) (rpm : number)
    (srh : option Z) (degree : option number) (current target : Z) :
  position st = Some current ->
  resolves (motor st) srh degree target ->
  run (go_to_position cw rpm srh degree) st
  = run (go_to_position cw rpm (Some target) None) st.
Proof.
  intros Hp [[-> ->]|(-> & d & -> & Hd)]; [reflexivity|].
  rewrite (run_go_to_position_degree st cw rpm current d Hp), Hd. reflexivity.
Qed.

(** A return of [go_to_position] had a position to start from and a step
    index to go to. *)
Lemma go_to_position_return_target (st st' : state) (cw : bool) (rpm : number)
    (srh : option Z) (degree : option number) :
  run (go_to_position cw rpm srh degree) st = (Return tt, st') ->
  exists current target,
    position st = Some current
    /\ resolves (motor st) srh degree target
    /\ (target = current
        \/ (0 <= target <= steps_per_revolution (motor st) - 1
            /\ run (step (distance (steps_per_revolution (motor st))
                                   current target cw) cw rpm) st
               = (Return tt, st'))).
Proof.
  intros H. pose proof (run_go_to_position_end st cw rpm srh degree) as He.
  rewrite H in He.
  inversion He as [| | | |current Hc Hres Ho|
                   |current target Hc Hres Hne Ht Ho]; subst.
  - exists current, current. auto.
  - exists current, target. auto.
Qed.

(** X8. [go_to_position] returns exactly when home
    is marked, one target is given and resolves to a step index, and that
    index is the current position, or is inside the revolution and the
    [step] over the distance returns. *)
Theorem go_to_position_returns_iff (st : state) (cw : bool) (rpm : number)
    (srh : option Z) (degree : option number) :
  fst (run (go_to_position cw rpm srh degree) st) = Return tt
  <-> exists current target,
        position st = Some current
        /\ resolves (motor st) srh degree target
        /\ (target = current
            \/ (0 <= target <= steps_per_revolution (motor st) - 1
                /\ fst (run (step (distance (steps_per_revolution (motor st))
                                            current target cw) cw rpm) st)
                   = Return tt)).
Proof.
  split.
  - intros H.
    destruct (run (go_to_position cw rpm srh degree) st) as [o st'] eqn:E.
    cbn [fst] in H. subst o.
    destruct (go_to_position_return_target st st' cw rpm srh degree E)
      as (current & target & Hp & Hres & Hcase).
    exists current, target. split; [exact Hp|]. split; [exact Hres|].
    destruct Hcase as [Heq|[Hr Hs]]; [left; exact Heq|right].
    split; [exact Hr|]. rewrite Hs. reflexivity.
  - intros (current & target & Hp & Hres & Hcase).
    rewrite (run_go_to_position_resolved st cw rpm srh degree current target Hp Hres).
    rewrite (run_go_to_position_steps st cw rpm current target Hp).
    destruct (Z.eqb_spec target current) as [Heq|Hne]; [reflexivity|].
    destruct Hcase as [Heq|[Hr Hs]]; [contradiction|].
    destruct (Z.ltb_spec target 0); [lia|].
    destruct (Z.gtb_spec target (steps_per_revolution (motor st) - 1)); [lia|].
    exact Hs.
Qed.

(** ** What a call leaves behind *)

(** The object after [step], however it ends: as it was, or moved by the
    whole count. *)
Lemma run_step_motor (st : state) (steps : Z) (cw : bool) (rpm : number) :
  match fst (run (step steps cw rpm) st) with
  | Return _ => motor (snd (run (step steps cw rpm) st))
                = update_times (Z.to_nat steps) cw (motor st)
  | Raise _ => motor (snd (run (step steps cw rpm) st)) = motor st
  end.
Proof.
  destruct (run_step_end st steps cw rpm); reflexivity.
Qed.

Lemma run_step_pulses (st : state) (steps : Z) (cw : bool) (rpm : number) :
  match fst (run (step steps cw rpm) st) with
  | Return _ => pulses (trace (snd (run (step steps cw rpm) st)))
                = pulses (trace st) + Z.max 0 steps
  | Raise (time_sleep_error _) =>
      pulses (trace (snd (run (step steps cw rpm) st))) = pulses (trace st) + 1
  | Raise _ => pulses (trace (snd (run (step steps cw rpm) st))) = pulses (trace st)
  end.
Proof.
  destruct (run_step_end st steps cw rpm) as [limit Hm Hgt|e _ He Hk|d _ Hd Hs Hr|d _ Hd _];
    cbn [fst snd trace].
  - reflexivity.
  - rewrite pulses_app.
    replace (pulses [GPIO_output direction_pin (if cw then HIGH else LOW);
                     GPIO_output enable_pin LOW]) with 0 by (destruct cw; reflexivity).
    destruct Hk as [-> | ->]; lia.
  - rewrite pulses_app.
    replace (pulses [GPIO_output direction_pin (if cw then HIGH else LOW);
                     GPIO_output enable_pin LOW; GPIO_output pulse_pin HIGH])
      with 1 by (destruct cw; reflexivity).
    reflexivity.
  - rewrite pulses_app, pulses_step_events. reflexivity.
Qed.

(** Each call is a call of [step] on the same state, or leaves the state
    as it is, or is one of the two that write the position only. *)
Lemma run_call_cases (c : method_call) (st : state) :
  (exists steps cw rpm,
      is_bookkeeping c = false
      /\ run (call c) st = run (step steps cw rpm) st)
  \/ (exists o, is_bookkeeping c = false /\ run (call c) st = (o, st))
  \/ (c = call_set_current_position_as_home
      /\ run (call c) st
         = (Return tt, mkState (set_steps_from_home (motor st) (Some 0)) (trace st)))
  \/ (exists cw,
        c = call_update_position cw
        /\ run (call c) st
           = (Return tt, mkState (update_position_self cw (motor st)) (trace st))).
Proof.
  destruct c as [steps cw rpm|cw rpm|rotations cw rpm| |cw|cw rpm srh degree];
    cbn [call].
  - left. exists steps, cw, rpm. split; reflexivity.
  - left. exists (steps_per_revolution (motor st)), cw, rpm. split; reflexivity.
  - left. exists (rotations * steps_per_revolution (motor st)), cw, rpm.
    split; reflexivity.
  - right. right. left. split; reflexivity.
  - right. right. right. exists cw. split; reflexivity.
  - destruct (run_go_to_position_end st cw rpm srh degree);
      try (right; left; eexists; split; reflexivity).
    left. eexists _, _, _. split; reflexivity.
Qed.

Lemma run_step_raise (st st' : state) (steps : Z) (cw : bool) (rpm : number)
    (e : exn) :
  run (step steps cw rpm) st = (Raise e, st') ->
  motor st' = motor st
  /\ pulses (trace st) <= pulses (trace st') <= pulses (trace st) + 1
  /\ (is_check_error e = true -> st' = st).
Proof.
  intros H.
  pose proof (run_step_motor st steps cw rpm) as Hm.
  pose proof (run_step_pulses st steps cw rpm) as Hp.
  pose proof (run_step_end st steps cw rpm) as He.
  rewrite H in Hm, Hp, He. cbn [fst snd] in Hm, Hp.
  split; [exact Hm|]. split.
  - destruct e; lia.
  - intros Hc. inversion He; subst; try reflexivity; try discriminate.
    match goal with Hk : _ \/ _ |- _ => destruct Hk; subst; discriminate end.
Qed.

Lemma run_call_raise (c : method_call) (st st' : state) (e : exn) :
  run (call c) st = (Raise e, st') ->
  motor st' = motor st
  /\ pulses (trace st) <= pulses (trace st') <= pulses (trace st) + 1
  /\ (is_check_error e = true -> st' = st).
Proof.
  intros H.
  destruct (run_call_cases c st)
    as [(steps & cw & rpm & _ & E)|[(o & _ & E)|[(_ & E)|(cw & _ & E)]]].
  - rewrite E in H. eapply run_step_raise, H.
  - rewrite E in H. injection H as _ <-. split; [reflexivity|]. split; [lia|auto].
  - rewrite E in H. discriminate.
  - rewrite E in H. discriminate.
Qed.

(** X9. A call of any method that raises leaves the
    object as it was, and has sent at most one pulse: the one [time.sleep]
    refused to time. *)
Theorem call_raise_keeps_object (c : method_call) (st st' : state) (e : exn) :
  run (call c) st = (Raise e, st') ->
  motor st' = motor st
  /\ pulses (trace st) <= pulses (trace st') <= pulses (trace st) + 1.
Proof.
  intros H. destruct (run_call_raise c st st' e H) as (Hm & Hp & _). auto.
Qed.

(** X10. What a method raises on checking its
    arguments and the object, and what [int()] raises on NaN, comes before
    the first write: the object and the lines are as they were. *)
Theorem call_check_error_writes_nothing (c : method_call) (st st' : state)
    (e : exn) :
  run (call c) st = (Raise e, st') ->
  is_check_error e = true ->
  st' = st.
Proof.
  intros H. destruct (run_call_raise c st st' e H) as (_ & _ & Hc). exact Hc.
Qed.

(** ** The object stays as the constructor made it *)

Lemma update_times_well_formed (k : nat) (cw : bool) (n : Z)
    (limit : option number) (hold : bool) (self : StepperMotor) :
  well_formed n limit hold self ->
  well_formed n limit hold (update_times k cw self).
Proof.
  intros (Hn & Hl & Hh & Hp).
  destruct (update_times_fields k cw self) as (En & El & Eh).
  unfold well_formed. rewrite En, El, Eh. repeat (split; [assumption|]).
  destruct Hp as [Hp|Hp].
  - left. rewrite update_times_unset; assumption.
  - right. apply update_times_in_range, Hp.
Qed.

Lemma call_keeps_well_formed (c : method_call) (st : state) (n : Z)
    (limit : option number) (hold : bool) :
  0 < n ->
  well_formed n limit hold (motor st) ->
  well_formed n limit hold (motor (snd (run (call c) st))).
Proof.
  intros Hpos Hw.
  destruct (run_call_cases c st)
    as [(steps & cw & rpm & _ & E)|[(o & _ & E)|[(_ & E)|(cw & _ & E)]]];
    rewrite E.
  - pose proof (run_step_motor st steps cw rpm) as Hm.
    destruct (fst (run (step steps cw rpm) st)); rewrite Hm.
    + apply update_times_well_formed, Hw.
    + exact Hw.
  - exact Hw.
  - cbn [snd motor]. destruct Hw as (Hn & Hl & Hh & Hp).
    unfold well_formed. cbn. repeat (split; [assumption|]).
    right. exists 0. cbn. split; [reflexivity|lia].
  - cbn [snd motor]. destruct Hw as (Hn & Hl & Hh & Hp).
    destruct (update_position_self_fields (motor st) cw) as (En & El & Eh).
    unfold well_formed. rewrite En, El, Eh. repeat (split; [assumption|]).
    destruct Hp as [Hp|Hp].
    + left. rewrite update_position_self_unset; assumption.
    + right. apply update_position_self_in_range, Hp.
Qed.

Lemma run_calls_invariant (P : state -> Prop) (cs : list method_call) :
  (forall c st, In c cs -> P st -> P (snd (run (call c) st))) ->
  forall st, P st -> Forall P (run_calls cs st).
Proof.
  induction cs as [|c cs IH]; intros Hstep st Hst; cbn [run_calls].
  - constructor; [assumption|constructor].
  - constructor; [assumption|]. apply IH.
    + intros c' st' Hin. apply Hstep. right. assumption.
    + apply Hstep; [left; reflexivity|assumption].
Qed.

(** X11. For [N > 0], the object [__init__] makes keeps its configuration, and a
    position that is unset or in [0, N), through every program of method
    calls, whichever of them raise. *)
Theorem run_calls_well_formed (cs : list method_call) (n : Z)
    (limit : option number) (hold : bool) :
  0 < n ->
  Forall (fun st => well_formed n limit hold (motor st))
         (run_calls cs (snd (__init__ n limit hold))).
Proof.
  intros Hpos. apply run_calls_invariant.
  - intros c st _. apply call_keeps_well_formed, Hpos.
  - cbn. unfold well_formed. cbn. auto.
Qed.

(** ** Home is marked by [set_current_position_as_home] alone *)

Lemma call_keeps_unset (c : method_call) (st : state) :
  is_set_home c = false ->
  position st = None ->
  position (snd (run (call c) st)) = None.
Proof.
  intros Hc Hp. unfold position in *.
  destruct (run_call_cases c st)
    as [(steps & cw & rpm & _ & E)|[(o & _ & E)|[(Ec & E)|(cw & _ & E)]]].
  - rewrite E. pose proof (run_step_motor st steps cw rpm) as Hm.
    destruct (fst (run (step steps cw rpm) st)); rewrite Hm.
    + rewrite update_times_unset; assumption.
    + exact Hp.
  - rewrite E. exact Hp.
  - subst c. discriminate.
  - rewrite E. cbn [snd motor]. rewrite update_position_self_unset; assumption.
Qed.

(** X12. Through a program that never calls [set_current_position_as_home], on
    the object [__init__] makes, the position stays unset and
    [go_to_position] raises its [AttributeError] with nothing written,
    whatever its arguments. *)
Theorem home_never_set_without_set_home (cs : list method_call) (n : Z)
    (limit : option number) (hold : bool) :
  forallb (fun c => negb (is_set_home c)) cs = true ->
  Forall (fun st =>
            position st = None
            /\ forall cw rpm srh degree,
                 run (go_to_position cw rpm srh degree) st
                 = (Raise PositionUnknown, st))
         (run_calls cs (snd (__init__ n limit hold))).
Proof.
  intros Hcs.
  assert (H : Forall (fun st => position st = None)
                     (run_calls cs (snd (__init__ n limit hold)))).
  { apply run_calls_invariant; [|reflexivity].
    intros c st Hin. apply call_keeps_unset.
    rewrite forallb_forall in Hcs. apply Hcs in Hin.
    now apply negb_true_iff in Hin. }
  eapply Forall_impl; [|exact H]. cbn beta. intros st Hp. split; [exact Hp|].
  intros. apply run_go_to_position_unset, Hp.
Qed.

(** ** The enable line *)

Lemma last_enable_app (t1 t2 : list event) :
  last_enable (t1 ++ t2) = fold_left enable_write t2 (last_enable t1).
Proof. unfold last_enable. apply fold_left_app. Qed.

Lemma enable_write_pulses (d : spec_float) (k : nat) (acc : option level) :
  fold_left enable_write (concat (repeat (pulse_events d) k)) acc = acc.
Proof.
  induction k as [|k IH]; [reflexivity|].
  cbn [repeat concat]. rewrite fold_left_app. exact IH.
Qed.

Lemma last_enable_step_events (tr : list event) (self : StepperMotor) (steps : Z)
    (cw : bool) (d : spec_float) :
  last_enable (tr ++ step_events self steps cw d)
  = Some (if hold_position self then LOW else HIGH).
Proof.
  rewrite last_enable_app. unfold step_events.
  rewrite !fold_left_app, enable_write_pulses.
  destruct (hold_position self); reflexivity.
Qed.

(** X13. When the enable line is LOW with [hold_position] and HIGH without, it is
    so again after every call that returns. *)
Theorem call_return_keeps_idle_enable (c : method_call) (st : state) :
  idle_enable st ->
  fst (run (call c) st) = Return tt ->
  idle_enable (snd (run (call c) st)).
Proof.
  intros Hi Hr. unfold idle_enable in *.
  destruct (run_call_cases c st)
    as [(steps & cw & rpm & _ & E)|[(o & _ & E)|[(_ & E)|(cw & _ & E)]]];
    rewrite E in *.
  - destruct (run_step_end st steps cw rpm); try discriminate.
    cbn [snd trace motor]. rewrite last_enable_step_events.
    destruct (update_times_fields (Z.to_nat steps) cw (motor st)) as (_ & _ & ->).
    reflexivity.
  - exact Hi.
  - exact Hi.
  - cbn [snd trace motor].
    destruct (update_position_self_fields (motor st) cw) as (_ & _ & ->).
    exact Hi.
Qed.

(** X14. A [step] that raises anything but the speed error has set the enable
    line LOW and not released it, also when [hold_position] is off. *)
Theorem step_raise_leaves_enabled (st st' : state) (steps : Z) (cw : bool)
    (rpm : number) (e : exn) :
  run (step steps cw rpm) st = (Raise e, st') ->
  e <> SpeedExceeded ->
  last_enable (trace st') = Some LOW.
Proof.
  intros H Hne. pose proof (run_step_end st steps cw rpm) as He.
  rewrite H in He. inversion He; subst; cbn [trace].
  - contradiction.
  - rewrite last_enable_app. reflexivity.
  - rewrite last_enable_app. reflexivity.
Qed.

Lemma call_keeps_enabled (c : method_call) (st : state) :
  hold_position (motor st) = true ->
  last_enable (trace st) = Some LOW ->
  hold_position (motor (snd (run (call c) st))) = true
  /\ last_enable (trace (snd (run (call c) st))) = Some LOW.
Proof.
  intros Hh Hl.
  destruct (run_call_cases c st)
    as [(steps & cw & rpm & _ & E)|[(o & _ & E)|[(_ & E)|(cw & _ & E)]]];
    rewrite E.
  - destruct (run_step_end st steps cw rpm); cbn [snd trace motor].
    + auto.
    + split; [assumption|]. rewrite last_enable_app. reflexivity.
    + split; [assumption|]. rewrite last_enable_app. reflexivity.
    + destruct (update_times_fields (Z.to_nat steps) cw (motor st)) as (_ & _ & ->).
      split; [assumption|]. rewrite last_enable_step_events, Hh. reflexivity.
  - auto.
  - auto.
  - cbn [snd trace motor].
    destruct (update_position_self_fields (motor st) cw) as (_ & _ & ->). auto.
Qed.

(** X15. With [hold_position] on, the enable line is LOW after [__init__] and
    after every call of every program, whichever of them raise. *)
Theorem hold_position_keeps_enabled (cs : list method_call) (n : Z)
    (limit : option number) :
  Forall (fun st => last_enable (trace st) = Some LOW)
         (run_calls cs (snd (__init__ n limit true))).
Proof.
  assert (H : Forall (fun st => hold_position (motor st) = true
                                /\ last_enable (trace st) = Some LOW)
                     (run_calls cs (snd (__init__ n limit true)))).
  { apply run_calls_invariant; [|split; reflexivity].
    intros c st _ [Hh Hl]. apply call_keeps_enabled; assumption. }
  eapply Forall_impl; [|exact H]. cbn beta. intros st [_ Hl]. exact Hl.
Qed.

(** ** The position follows the pulses *)

Lemma signed_pulses_app (t1 t2 : list event) :
  signed_pulses (t1 ++ t2)
  = snd (fold_left count_signed t2 (fold_left count_signed t1 (LOW, 0))).
Proof. unfold signed_pulses. rewrite fold_left_app. reflexivity. Qed.

Lemma count_signed_pulses (d : spec_float) (k : nat) (l : level) (n : Z) :
  fold_left count_signed (concat (repeat (pulse_events d) k)) (l, n)
  = (l, match l with
        | HIGH => n + Z.of_nat k
        | LOW => n - Z.of_nat k
        end).
Proof.
  revert n. induction k as [|k IH]; intros n.
  - cbn. destruct l; f_equal; lia.
  - cbn [repeat concat]. rewrite fold_left_app.
    replace (fold_left count_signed (pulse_events d) (l, n))
      with (l, match l with HIGH => n + 1 | LOW => n - 1 end)
      by (destruct l; reflexivity).
    rewrite IH. destruct l; f_equal; lia.
Qed.

Lemma signed_pulses_step_events (tr : list event) (self : StepperMotor)
    (steps : Z) (cw : bool) (d : spec_float) :
  signed_pulses (tr ++ step_events self steps cw d)
  = signed_pulses tr + (if cw then Z.max 0 steps else - Z.max 0 steps).
Proof.
  rewrite signed_pulses_app. unfold signed_pulses.
  destruct (fold_left count_signed tr (LOW, 0)) as [l n]. cbn [snd].
  unfold step_events. rewrite !fold_left_app.
  cbn [fold_left count_signed snd fst].
  rewrite count_signed_pulses.
  destruct cw, (hold_position self); cbn; lia.
Qed.

(** X16. A call that returns, other than the two that only write the position,
    moves the position by the pulses it sent, counted with their
    direction, modulo [N]. *)
Theorem position_follows_pulses (c : method_call) (st : state) (p : Z) :
  is_bookkeeping c = false ->
  position st = Some p ->
  0 <= p < steps_per_revolution (motor st) ->
  fst (run (call c) st) = Return tt ->
  position (snd (run (call c) st))
  = Some ((p + (signed_pulses (trace (snd (run (call c) st)))
                - signed_pulses (trace st)))
            mod steps_per_revolution (motor st)).
Proof.
  intros Hc Hp Hr Hret.
  destruct (run_call_cases c st)
    as [(steps & cw & rpm & _ & E)|[(o & _ & E)|[(Ec & E)|(cw & Ec & E)]]];
    try (subst c; discriminate); rewrite E in *.
  - destruct (run_step_end st steps cw rpm); try discriminate.
    cbn [snd trace]. unfold position. cbn [motor].
    rewrite (update_times_mod _ cw (motor st) p Hp Hr).
    rewrite signed_pulses_step_events. f_equal. f_equal.
    destruct cw; lia.
  - cbn [snd]. rewrite Hp. f_equal.
    replace (p + (signed_pulses (trace st) - signed_pulses (trace st))) with p by lia.
    symmetry. apply Z.mod_small. assumption.
Qed.

(** ** [go_to_position] twice *)

Lemma run_go_to_position_already (st : state) (cw : bool) (rpm : number)
    (srh : option Z) (degree : option number) (target : Z) :
  position st = Some target ->
  resolves (motor st) srh degree target ->
  run (go_to_position cw rpm srh degree) st = (Return tt, st).
Proof.
  intros Hp [[-> ->]|(-> & d & -> & Hd)].
  - rewrite (run_go_to_position_steps st cw rpm target target Hp).
    rewrite Z.eqb_refl. reflexivity.
  - rewrite (run_go_to_position_degree st cw rpm target d Hp), Hd.
    rewrite (run_go_to_position_steps st cw rpm target target Hp).
    rewrite Z.eqb_refl. reflexivity.
Qed.

Lemma resolves_ext (a b : StepperMotor) (srh : option Z)
    (degree : option number) (target : Z) :
  steps_per_revolution a = steps_per_revolution b ->
  resolves a srh degree target -> resolves b srh degree target.
Proof.
  intros E [H|(Hs & d & Hd & Ho)]; [left; exact H|right].
  split; [exact Hs|]. exists d. split; [exact Hd|].
  rewrite <- (steps_of_degree_ext a b d E). exact Ho.
Qed.

(** A return of [go_to_position] from a position in range leaves the motor
    on the step index the call is about. *)
Lemma go_to_position_return_resolves (st st' : state) (cw : bool) (rpm : number)
    (srh : option Z) (degree : option number) :
  home_in_range (motor st) ->
  run (go_to_position cw rpm srh degree) st = (Return tt, st') ->
  exists target,
    position st' = Some target
    /\ resolves (motor st') srh degree target
    /\ steps_per_revolution (motor st') = steps_per_revolution (motor st).
Proof.
  intros (p & Hp & Hr) H.
  pose proof (run_go_to_position_end st cw rpm srh degree) as He.
  rewrite H in He.
  inversion He as [| | | |current Hc Hres Ho|
                   |current target Hc Hres Hne Ht Ho]; subst.
  - exists current. auto.
  - assert (current = p) by (unfold position in Hc; congruence). subst current.
    apply run_step_return in Ho as (d & Hd & ->).
    cbn [motor trace].
    destruct (update_times_fields
                (Z.to_nat (distance (steps_per_revolution (motor st)) p target cw))
                cw (motor st)) as (En & _ & _).
    exists target. split; [|split].
    + unfold position. cbn [motor].
      rewrite (update_times_mod _ cw (motor st) p Hp Hr).
      pose proof (distance_bounds (steps_per_revolution (motor st)) p target cw) as Hb.
      rewrite Z2Nat.id by lia. f_equal. apply distance_reaches; lia.
    + eapply resolves_ext; [symmetry; exact En|exact Hres].
    + exact En.
Qed.

(** X17. After [go_to_position] returned, from a position in range, the same
    target asked again, in any direction and at any rpm, returns with
    nothing written. *)
Theorem go_to_position_idempotent (st st' : state) (cw cw' : bool)
    (rpm rpm' : number) (srh : option Z) (degree : option number) :
  home_in_range (motor st) ->
  run (go_to_position cw rpm srh degree) st = (Return tt, st') ->
  run (go_to_position cw' rpm' srh degree) st' = (Return tt, st').
Proof.
  intros Hh H.
  destruct (go_to_position_return_resolves st st' cw rpm srh degree Hh H)
    as (target & Hp & Hres & _).
  eapply run_go_to_position_already; eassumption.
Qed.

(** X18. From [a] to another index [b] and back to [a] in the same direction, at
    an accepted speed: the two moves return and make [N] pulses
    together, one revolution. *)
Theorem go_to_position_round_trip (st : state) (cw : bool) (rpm : number)
    (a b : Z) :
  position st = Some a ->
  0 <= a < steps_per_revolution (motor st) ->
  0 <= b < steps_per_revolution (motor st) ->
  a <> b ->
  speed_accepted (motor st) rpm = true ->
  exists st1 st2,
    run (go_to_position cw rpm (Some b) None) st = (Return tt, st1)
    /\ run (go_to_position cw rpm (Some a) None) st1 = (Return tt, st2)
    /\ position st2 = Some a
    /\ pulses (trace st2) = pulses (trace st) + steps_per_revolution (motor st).
Proof.
  intros Hp Ha Hb Hne Hacc.
  pose proof Hacc as Hacc0.
  apply speed_accepted_inv in Hacc as (Hlim & d & Hd & Hs).
  destruct (run_go_to_position_moves st cw rpm a b d Hp Ha Hb
              (not_eq_sym Hne) Hlim Hd Hs) as (H1 & Hp1 & Hn1).
  set (st1 := mkState _ _) in *.
  assert (En : steps_per_revolution (motor st1) = steps_per_revolution (motor st)).
  { unfold st1. cbn [motor]. apply update_times_fields. }
  assert (Em : max_rpm (motor st1) = max_rpm (motor st)).
  { unfold st1. cbn [motor]. apply update_times_fields. }
  assert (Hd1 : calculate_delay_from_rpm (motor st1) rpm = Ok d).
  { rewrite <- Hd. apply calculate_delay_from_rpm_ext. exact En. }
  assert (Hlim1 : forall limit, max_rpm (motor st1) = Some limit ->
                                num_gt rpm limit = false).
  { rewrite Em. exact Hlim. }
  assert (Ha1 : 0 <= a < steps_per_revolution (motor st1)) by (rewrite En; lia).
  assert (Hb1 : 0 <= b < steps_per_revolution (motor st1)) by (rewrite En; lia).
  destruct (run_go_to_position_moves st1 cw rpm b a d Hp1 Hb1 Ha1
              Hne Hlim1 Hd1 Hs) as (H2 & Hp2 & Hn2).
  exists st1. eexists. split; [exact H1|]. split; [exact H2|]. split; [exact Hp2|].
  rewrite Hn2, Hn1, En. unfold distance.
  destruct cw; destruct (Z.gtb_spec b a); destruct (Z.gtb_spec a b); lia.
Qed.

(** X19. Wherever the motor stands, once
    [set_current_position_as_home] is called an index [t] inside the
    revolution is [t] pulses away clockwise and [N - t] anticlockwise:
    [go_to_position] returns there with that many pulses sent. *)
Theorem go_to_position_from_home (st : state) (cw : bool) (rpm : number)
    (t : Z) :
  0 < t < steps_per_revolution (motor st) ->
  speed_accepted (motor st) rpm = true ->
  exists st',
    run (go_to_position cw rpm (Some t) None)
        (snd (run set_current_position_as_home st)) = (Return tt, st')
    /\ position st' = Some t
    /\ pulses (trace st')
       = pulses (trace st)
         + (if cw then t else steps_per_revolution (motor st) - t).
Proof.
  intros Ht Hacc. apply speed_accepted_inv in Hacc as (Hlim & d & Hd & Hs).
  set (st0 := snd (run set_current_position_as_home st)).
  assert (Hp0 : position st0 = Some 0) by reflexivity.
  assert (En : steps_per_revolution (motor st0) = steps_per_revolution (motor st))
    by reflexivity.
  assert (Hd0 : calculate_delay_from_rpm (motor st0) rpm = Ok d).
  { rewrite <- Hd. apply calculate_delay_from_rpm_ext. exact En. }
  destruct (run_go_to_position_moves st0 cw rpm 0 t d Hp0) as (H1 & H2 & H3);
    try assumption; try (rewrite En; lia); try lia.
  eexists. split; [exact H1|]. split; [exact H2|].
  rewrite H3, En. unfold distance.
  change (trace st0) with (trace st).
  destruct cw; destruct (Z.gtb_spec t 0); lia.
Qed.

(** ** Angles as targets *)

Lemma resolves_degree (self : StepperMotor) (d : number) (target : Z) :
  resolves self None (Some d) target -> steps_of_degree self d = Ok target.
Proof.
  intros [[H _]|(_ & d' & Hd & Ho)]; [discriminate|].
  injection Hd as <-. exact Ho.
Qed.

(** X20. [go_to_position] returns on an angle
    only if the angle is a number from 0 to 360: below, above and NaN, it
    raises. *)
Theorem go_to_position_degree_in_range (st st' : state) (cw : bool)
    (rpm degree : number) :
  run (go_to_position cw rpm None (Some degree)) st = (Return tt, st') ->
  num_le (Int 0) degree = true /\ num_le degree (Int 360) = true.
Proof.
  intros H.
  destruct (go_to_position_return_target st st' cw rpm None (Some degree) H)
    as (current & target & _ & Hres & _).
  apply resolves_degree in Hres.
  eapply steps_of_degree_range_check, Hres.
Qed.

(** X21. With fewer than [2 ^ 40] steps per
    revolution, from a position in range, a return of [go_to_position] on
    an int angle [d] leaves the motor on the step index [i] with
    [360 * i = d * N]: the rounding of the two divisions never lets an
    angle through that is not a whole number of steps. *)
Theorem go_to_position_degree_exact (st st' : state) (cw : bool) (rpm : number)
    (d : Z) :
  home_in_range (motor st) ->
  steps_per_revolution (motor st) < 2 ^ 40 ->
  run (go_to_position cw rpm None (Some (Int d))) st = (Return tt, st') ->
  exists i,
    position st' = Some i
    /\ 360 * i = d * steps_per_revolution (motor st).
Proof.
  intros Hh Hn H.
  destruct (go_to_position_return_resolves st st' cw rpm None (Some (Int d)) Hh H)
    as (i & Hp & Hres & En).
  exists i. split; [exact Hp|].
  apply resolves_degree in Hres.
  destruct Hh as (p & _ & Hr).
  rewrite <- En.
  apply (steps_of_degree_int_sound (motor st') d i); [rewrite En; lia|exact Hres].
Qed.

(** X22. With fewer than [2 ^ 1000] steps per
    revolution, the angle zero, as an int or as a float of either sign,
    is the step index 0: the call does what the call with
    [steps_relative_to_home=0] does. *)
Theorem go_to_position_degree_zero (st : state) (cw : bool) (rpm degree : number) :
  0 < steps_per_revolution (motor st) < 2 ^ 1000 ->
  num_eq degree (Int 0) = true ->
  run (go_to_position cw rpm None (Some degree)) st
  = run (go_to_position cw rpm (Some 0) None) st.
Proof.
  intros Hn Hz. destruct (position st) as [current|] eqn:Hp.
  - rewrite (run_go_to_position_degree st cw rpm current degree Hp).
    rewrite (steps_of_degree_zero_index (motor st) degree Hn Hz). reflexivity.
  - rewrite !run_go_to_position_unset by exact Hp. reflexivity.
Qed.

End MoreRuns.

(** * The claims at concrete inputs, on [python_clock] *)

#[local] Existing Instance python_clock.

Lemma go_to_position_reaches_target_witness :
  let st := mkState (mkMotor 200 (Some (Int 630)) true (Some 10)) [] in
  let dist := distance 200 10 150 false in
  exists st',
    run (go_to_position false (Int 60) (Some 150) None) st = (Return tt, st')
    /\ position st' = Some 150
    /\ motor st' = update_times (Z.to_nat dist) false (motor st)
    /\ (exists d, trace st' = trace st ++ step_events (motor st) dist false d)
    /\ pulses (trace st') = pulses (trace st) + dist.
Proof.
  intros st.
  refine (proj2 (go_to_position_reaches_target st false (Int 60) 10 150 _ _ _) _ _).
  - reflexivity.
  - simpl; lia.
  - simpl; lia.
  - lia.
  - vm_compute. reflexivity.
Defined.

(** On a clock that refuses only negative durations and NaN, [step]
    accepts every rpm above zero that is within [max_rpm], for a step count
    below [2 ^ 1022]. *)
Lemma speed_accepted_python (self : StepperMotor) (rpm : number) :
  num_gt rpm (Int 0) = true ->
  (forall limit, max_rpm self = Some limit -> num_le rpm limit = true) ->
  0 < steps_per_revolution self < 2 ^ 1022 ->
  speed_accepted (clock := python_clock) self rpm = true.
Proof.
  intros Hgt Hlim Hn. unfold speed_accepted. apply andb_true_iff. split.
  - destruct (max_rpm self) as [limit|]; [|reflexivity].
    rewrite (le_not_gt rpm limit (Hlim limit eq_refl)). reflexivity.
  - destruct (calculate_delay_from_rpm_signed self rpm false (gt_zero_sign rpm Hgt) Hn)
      as (t & g & _ & _ & -> & Hs).
    cbn [sleep_rejects python_clock].
    destruct (SFdiv prec emax t g) as [s|s| |s m e]; try discriminate;
      injection Hs as ->; reflexivity.
Qed.

Lemma go_to_position_degree_90_and_91_witness :
  let st := mkState (mkMotor 200 (Some (Int 630)) true (Some 0)) [] in
  (steps_of_degree (motor st) (Int 90) = Ok 50
   /\ steps_of_degree (motor st) (Float (S754_finite false 6333186975989760 (-46)))
      = Ok 50
   /\ exists st',
        run (go_to_position true (Int 60) None (Some (Int 90))) st = (Return tt, st')
        /\ position st' = Some 50)
  /\ (steps_of_degree (motor st) (Int 91) = Error NotAStepMultiple
      /\ steps_of_degree (motor st) (Float (S754_finite false 6403555720167424 (-46)))
         = Error NotAStepMultiple
      /\ run (go_to_position true (Int 60) None (Some (Int 91))) st
         = (Raise NotAStepMultiple, st)).
Proof.
  intros st.
  apply (go_to_position_degree_90_and_91 st true (Int 60) 0).
  - reflexivity.
  - reflexivity.
  - lia.
  - vm_compute. reflexivity.
Defined.

Lemma go_to_position_degree_360_raises_witness :
  (run (go_to_position true (Int 60) None (Some (Int 360))) example_state
   = (Raise StepsOutOfRange, example_state)
   \/ run (go_to_position true (Int 60) None (Some (Int 360))) example_state
      = (Raise NotAStepMultiple, example_state))
  /\ steps_of_degree (motor example_state) (Int 360) = Ok 200
  /\ run (go_to_position true (Int 60) None (Some (Int 360))) example_state
     = (Raise StepsOutOfRange, example_state).
Proof.
  destruct (go_to_position_degree_360_raises example_state true (Int 60) 0)
    as [H1 H2].
  - split; reflexivity.
  - reflexivity.
  - simpl; lia.
  - split; [exact H1|exact (H2 eq_refl)].
Defined.

(** A second way for an exact multiple to be refused: with 35 steps per
    revolution the angle 72 is seven step angles, but the binary64 quotient
    [72 / (360 / 35)] is one unit in the last place below the float 7.0 and
    the multiple check raises. *)
Lemma go_to_position_degree_72_of_35_steps_raises :
  (72 * 35 = 7 * 360)%Z
  /\ truediv (Int 360) (Int 35) = Ok (S754_finite false 5790342378047781 (-49))
  /\ truediv (Int 72) (Float (S754_finite false 5790342378047781 (-49)))
     = Ok (S754_finite false 7881299347898367 (-50))
  /\ float_of_int 7 = Ok (S754_finite false 7881299347898368 (-50))
  /\ run (go_to_position true (Int 60) None (Some (Int 72)))
         (mkState (mkMotor 35 None true (Some 0)) [])
     = (Raise NotAStepMultiple, mkState (mkMotor 35 None true (Some 0)) []).
Proof. vm_compute. repeat split; reflexivity. Qed.

Lemma step_speed_exceeded_witness :
  let st := mkState (mkMotor 200 (Some (Int 100)) true (Some 7)) [] in
  (run (step 5 true (Int 150)) st = (Raise SpeedExceeded, st)
   /\ pulses (trace (snd (run (step 5 true (Int 150)) st))) = pulses (trace st)
   /\ position (snd (run (step 5 true (Int 150)) st)) = position st)
  /\ fst (run (step 5 true (Int 60)) st) <> Raise SpeedExceeded.
Proof.
  intros st. split.
  - apply (proj1 (step_speed_exceeded st 5 true (Int 150)) (Int 100)); reflexivity.
  - apply (proj2 (step_speed_exceeded st 5 true (Int 60))).
    right. exists (Int 100). split; reflexivity.
Defined.

Lemma update_position_keeps_range_witness :
  Forall (fun s => home_in_range (motor s))
         (observations [false; true; true; false; false] example_state).
Proof.
  apply (update_position_keeps_range example_state [false; true; true; false; false]).
  - simpl; lia.
  - exists 0. simpl. split; [reflexivity|lia].
Defined.

Lemma step_round_trip_from_home_witness :
  let st0 := snd (run set_current_position_as_home
                      (mkState (mkMotor 200 (Some (Int 630)) true None) [])) in
  exists st1 st2,
    run (step 37 true (Int 60)) st0 = (Return tt, st1)
    /\ run (step 37 false (Int 60)) st1 = (Return tt, st2)
    /\ position st2 = position st0
    /\ position st0 = Some 0.
Proof.
  apply (step_round_trip_from_home
           (mkState (mkMotor 200 (Some (Int 630)) true None) []) (Int 60) 37).
  - simpl; lia.
  - simpl; lia.
  - vm_compute. reflexivity.
Defined.

Lemma go_to_position_pulse_count_bounds_witness :
  let st := mkState (mkMotor 200 (Some (Int 630)) true (Some 199)) [] in
  exists st',
    run (go_to_position true (Int 60) (Some 198) None) st = (Return tt, st')
    /\ 1 <= pulses (trace st') - pulses (trace st)
         <= steps_per_revolution (motor st) - 1.
Proof.
  intros st.
  refine (proj1 (go_to_position_pulse_count_bounds st true (Int 60) 199 _ _)
                198 _ _ _).
  - reflexivity.
  - simpl; lia.
  - simpl; lia.
  - lia.
  - vm_compute. reflexivity.
Defined.

Lemma step_non_positive_count_witness :
  exists st',
    run (step (-5) false (Int 60)) example_state = (Return tt, st')
    /\ pulses (trace st') = pulses (trace example_state)
    /\ motor st' = motor example_state
    /\ position st' = position example_state.
Proof.
  apply (step_non_positive_count example_state (-5) false (Int 60)).
  - lia.
  - vm_compute. reflexivity.
Defined.

(** * The claims on the timing computation *)

(** C4, as stated, fails: at rpm = -60 on 200 steps per revolution the
    timing computation returns the duration -0.0025. *)
Lemma calculate_delay_from_rpm_negative_returns :
  num_le (Int (-60)) (Int 0) = true
  /\ 0 < steps_per_revolution example_motor
  /\ calculate_delay_from_rpm example_motor (Int (-60))
     = Ok (S754_finite true 5764607523034235 (-61)).
Proof. vm_compute. repeat split; reflexivity. Qed.

(** C4, amended. For every [N > 0]: at an rpm equal to zero (the int 0 or
    a float zero) [calculate_delay_from_rpm] raises [ZeroDivisionError] and
    returns no duration; at an rpm below zero it raises nothing when
    [N < 2 ^ 1022] and returns a duration with the minus sign. *)
Theorem calculate_delay_from_rpm_non_positive (self : StepperMotor) (rpm : number) :
  0 < steps_per_revolution self ->
  (num_eq rpm (Int 0) = true ->
   calculate_delay_from_rpm self rpm = Error ZeroDivisionError)
  /\ (num_lt rpm (Int 0) = true ->
      steps_per_revolution self < 2 ^ 1022 ->
      exists d, calculate_delay_from_rpm self rpm = Ok d
                /\ signbit d = Some true).
Proof.
  intros Hn. split.
  - intros Hz. unfold calculate_delay_from_rpm.
    destruct (eq_zero_cases rpm Hz) as [->|(s & ->)]; reflexivity.
  - intros Hlt Hb.
    destruct (calculate_delay_from_rpm_signed self rpm true (lt_zero_sign rpm Hlt))
      as (t & g & _ & _ & Hd & Hs); [lia|].
    eauto.
Qed.

Lemma calculate_delay_from_rpm_non_positive_witness :
  calculate_delay_from_rpm example_motor (Float (S754_zero true))
  = Error ZeroDivisionError
  /\ exists d, calculate_delay_from_rpm example_motor (Int (-60)) = Ok d
               /\ signbit d = Some true.
Proof.
  split.
  - apply (proj1 (calculate_delay_from_rpm_non_positive example_motor
                    (Float (S754_zero true)) eq_refl)).
    reflexivity.
  - apply (proj2 (calculate_delay_from_rpm_non_positive example_motor
                    (Int (-60)) eq_refl)).
    + reflexivity.
    + reflexivity.
Defined.

(** C8, as stated, fails: at rpm = 13 on 3 steps per revolution the value
    returned, [(60 / 13) / (3 * 2)], is one unit in the last place below the
    float [30 / (13 * 3)], and it is not the rational 30/39. *)
Lemma calculate_delay_from_rpm_not_single_quotient :
  num_gt (Int 13) (Int 0) = true
  /\ calculate_delay_from_rpm (mkMotor 3 None true None) (Int 13)
     = Ok (S754_finite false 6928614811339224 (-53))
  /\ truediv (Int 30) (Int (13 * 3))
     = Ok (S754_finite false 6928614811339225 (-53))
  /\ SFeqb (S754_finite false 6928614811339224 (-53))
           (S754_finite false 6928614811339225 (-53)) = false
  /\ (6928614811339224 * (13 * 3) <> 30 * 2 ^ 53)%Z.
Proof. vm_compute. repeat split; try reflexivity. discriminate. Qed.

(** C8, amended. For every rpm above zero and [0 < N < 2 ^ 1022],
    [calculate_delay_from_rpm] raises nothing and returns the binary64
    quotient of [60 / rpm], itself rounded to binary64, by the float of
    [N * 2]; the duration returned has the plus sign. For an int rpm below
    [2 ^ 64] and [N < 2 ^ 52] the duration returned, [m * 2 ^ e], is within
    relative error [2 ^ -49] of [30 / (rpm * N)]. *)
Theorem calculate_delay_from_rpm_positive (self : StepperMotor) (rpm : number) :
  num_gt rpm (Int 0) = true ->
  0 < steps_per_revolution self < 2 ^ 1022 ->
  (exists time_per_revolution steps_times_2,
     truediv (Int 60) rpm = Ok time_per_revolution
     /\ float_of_int (steps_per_revolution self * 2) = Ok steps_times_2
     /\ calculate_delay_from_rpm self rpm
        = Ok (SFdiv prec emax time_per_revolution steps_times_2)
     /\ signbit (SFdiv prec emax time_per_revolution steps_times_2) = Some false)
  /\ (forall r,
        rpm = Int r -> r < 2 ^ 64 -> steps_per_revolution self < 2 ^ 52 ->
        exists m e,
          calculate_delay_from_rpm self rpm = Ok (S754_finite false m e)
          /\ e < 0
          /\ 2 ^ 49 * Z.abs (Zpos m * r * steps_per_revolution self - 30 * 2 ^ (- e))
             <= 30 * 2 ^ (- e)).
Proof.
  intros Hgt Hn. split.
  - apply calculate_delay_from_rpm_signed; [apply gt_zero_sign|]; assumption.
  - intros r -> Hr Hn52.
    apply calculate_delay_from_rpm_close; [|lia].
    split; [|assumption]. destruct r; simpl in Hgt; try discriminate. lia.
Qed.

Lemma calculate_delay_from_rpm_positive_witness :
  (exists time_per_revolution steps_times_2,
     truediv (Int 60) (Int 60) = Ok time_per_revolution
     /\ float_of_int (steps_per_revolution example_motor * 2) = Ok steps_times_2
     /\ calculate_delay_from_rpm example_motor (Int 60)
        = Ok (SFdiv prec emax time_per_revolution steps_times_2)
     /\ signbit (SFdiv prec emax time_per_revolution steps_times_2) = Some false)
  /\ (exists m e,
        calculate_delay_from_rpm example_motor (Int 60) = Ok (S754_finite false m e)
        /\ e < 0
        /\ 2 ^ 49 * Z.abs (Zpos m * 60 * steps_per_revolution example_motor
                           - 30 * 2 ^ (- e))
           <= 30 * 2 ^ (- e)).
Proof.
  destruct (calculate_delay_from_rpm_positive example_motor (Int 60)) as [H1 H2].
  - reflexivity.
  - split; reflexivity.
  - split; [exact H1|]. apply (H2 60 eq_refl); reflexivity.
Defined.

(** Why the bound on [N]: at [N = 2 ^ 1023] the int [N * 2] has no float
    and the division raises [OverflowError]. *)
Lemma calculate_delay_from_rpm_huge_steps_overflows :
  calculate_delay_from_rpm (mkMotor (2 ^ 1023) None true None) (Int 60)
  = Error OverflowError.
Proof. vm_compute. reflexivity. Qed.

(** ** A speed below zero, on [python_clock] *)

(** X23. On a clock that refuses negative durations,
    [step] at an rpm below zero with a count above zero computes a delay
    with the minus sign and, unless the delay is the float -0.0, raises
    out of the first [time.sleep]: the pulse line has just been set HIGH,
    the motor is enabled and the object is untouched. *)
Theorem step_negative_rpm_python (st : state) (steps : Z) (cw : bool)
    (rpm : number) :
  num_lt rpm (Int 0) = true ->
  0 < steps ->
  0 < steps_per_revolution (motor st) < 2 ^ 1022 ->
  (forall limit, max_rpm (motor st) = Some limit -> num_gt rpm limit = false) ->
  exists d,
    calculate_delay_from_rpm (motor st) rpm = Ok d
    /\ signbit d = Some true
    /\ if is_zero d
       then fst (run (step steps cw rpm) st) = Return tt
       else run (step steps cw rpm) st
            = (Raise (time_sleep_error d),
               mkState (motor st)
                 (trace st ++ [GPIO_output direction_pin (if cw then HIGH else LOW);
                               GPIO_output enable_pin LOW;
                               GPIO_output pulse_pin HIGH])).
Proof.
  intros Hlt Hsteps Hn Hlim.
  destruct (calculate_delay_from_rpm_signed (motor st) rpm true
              (lt_zero_sign rpm Hlt) Hn) as (t & g & _ & _ & Hd & Hs).
  exists (SFdiv prec emax t g). split; [exact Hd|]. split; [exact Hs|].
  destruct (SFdiv prec emax t g) as [s|s| |s m e]; cbn [signbit] in Hs;
    try discriminate; injection Hs as ->; cbn [is_zero].
  - rewrite (run_step st steps cw rpm _ Hlim Hd); [reflexivity|right; reflexivity].
  - apply (run_step_sleep_error st steps cw rpm _ Hlim Hd Hsteps). reflexivity.
  - apply (run_step_sleep_error st steps cw rpm _ Hlim Hd Hsteps). reflexivity.
Qed.

(** * The further properties at concrete inputs, on [python_clock] *)

(** The motor of [example.py] as [__init__] leaves it, and with home
    marked at step 150 of 200. *)
Lemma step_moves_counter_witness :
  let st := mkState (mkMotor 200 (Some (Int 630)) true (Some 150)) [] in
  exists st',
    run (step 250 true (Int 60)) st = (Return tt, st')
    /\ position st' = Some ((150 + Z.max 0 250) mod 200)
    /\ pulses (trace st') = pulses (trace st) + Z.max 0 250
    /\ steps_per_revolution (motor st') = steps_per_revolution (motor st)
    /\ max_rpm (motor st') = max_rpm (motor st)
    /\ hold_position (motor st') = hold_position (motor st).
Proof.
  intros st. apply (step_moves_counter st 250 true (Int 60) 150).
  - reflexivity.
  - simpl; lia.
  - vm_compute. reflexivity.
Defined.

Lemma step_home_unset_witness :
  exists st',
    main = (Return tt, st')
    /\ motor st' = motor (snd (__init__ 200 (Some (Int 630)) true))
    /\ pulses (trace st')
       = pulses (trace (snd (__init__ 200 (Some (Int 630)) true))) + Z.max 0 1000.
Proof.
  apply (step_home_unset (snd (__init__ 200 (Some (Int 630)) true))
           1000 true (Int 60)).
  - reflexivity.
  - vm_compute. reflexivity.
Defined.

Lemma do_one_rotation_full_turn_witness :
  let st := mkState (mkMotor 200 (Some (Int 630)) true (Some 150)) [] in
  exists st',
    run (do_one_rotation false (Int 60)) st = (Return tt, st')
    /\ motor st' = motor st
    /\ pulses (trace st') = pulses (trace st) + steps_per_revolution (motor st).
Proof.
  intros st. apply (do_one_rotation_full_turn st false (Int 60)).
  - exists 150. simpl. split; [reflexivity|lia].
  - vm_compute. reflexivity.
Defined.

Lemma rotate_whole_turns_witness :
  let st := mkState (mkMotor 200 (Some (Int 630)) true (Some 150)) [] in
  exists st',
    run (rotate 3 true (Int 60)) st = (Return tt, st')
    /\ motor st' = motor st
    /\ pulses (trace st')
       = pulses (trace st) + Z.max 0 3 * steps_per_revolution (motor st).
Proof.
  intros st. apply (rotate_whole_turns st 3 true (Int 60)).
  - exists 150. simpl. split; [reflexivity|lia].
  - vm_compute. reflexivity.
Defined.

Lemma step_then_step_witness :
  let st := mkState (mkMotor 200 (Some (Int 630)) true (Some 150)) [] in
  exists st1 st2,
    run (step 70 true (Int 60)) st = (Return tt, st1)
    /\ run (step 30 false (Int 120)) st1 = (Return tt, st2)
    /\ position st2
       = Some ((150 + (if true then 70 else - 70) + (if false then 30 else - 30))
               mod steps_per_revolution (motor st))
    /\ pulses (trace st2) = pulses (trace st) + 70 + 30.
Proof.
  intros st. apply (step_then_step st 70 30 true false (Int 60) (Int 120) 150).
  - reflexivity.
  - simpl; lia.
  - lia.
  - lia.
  - vm_compute. reflexivity.
  - vm_compute. reflexivity.
Defined.

Lemma step_zero_rpm_witness :
  exists st',
    run (step 10 true (Float (S754_zero true))) example_state
    = (Raise ZeroDivisionError, st')
    /\ motor st' = motor example_state
    /\ pulses (trace st') = pulses (trace example_state)
    /\ trace st' = trace example_state
                   ++ [GPIO_output direction_pin (if true then HIGH else LOW);
                       GPIO_output enable_pin LOW].
Proof.
  apply (step_zero_rpm example_state 10 true (Float (S754_zero true))).
  - reflexivity.
  - intros limit [= <-]. reflexivity.
Defined.

Lemma call_raise_keeps_object_witness :
  let c := call_rotate 2 false (Int 0) in
  let st' := snd (run (call c) example_state) in
  motor st' = motor example_state
  /\ pulses (trace example_state) <= pulses (trace st')
     <= pulses (trace example_state) + 1.
Proof.
  intros c st'.
  apply (call_raise_keeps_object c example_state st' ZeroDivisionError).
  vm_compute. reflexivity.
Defined.

Lemma call_check_error_writes_nothing_witness :
  snd (run (call (call_go_to_position true (Int 60) (Some 500) None)) example_state)
  = example_state.
Proof.
  apply (call_check_error_writes_nothing
           (call_go_to_position true (Int 60) (Some 500) None)
           example_state _ StepsOutOfRange).
  - vm_compute. reflexivity.
  - reflexivity.
Defined.

Lemma run_calls_well_formed_witness :
  Forall (fun st => well_formed 200 (Some (Int 630)) true (motor st))
         (run_calls [call_step 5 true (Int 60);
                     call_set_current_position_as_home;
                     call_go_to_position false (Int 700) (Some 10) None;
                     call_do_one_rotation true (Int 0);
                     call_update_position false]
                    (snd (__init__ 200 (Some (Int 630)) true))).
Proof.
  apply (run_calls_well_formed _ 200 (Some (Int 630)) true). lia.
Defined.

Lemma home_never_set_without_set_home_witness :
  Forall (fun st =>
            position st = None
            /\ forall cw rpm srh degree,
                 run (go_to_position cw rpm srh degree) st
                 = (Raise PositionUnknown, st))
         (run_calls [call_step 5 true (Int 60);
                     call_update_position true;
                     call_go_to_position true (Int 60) (Some 10) None;
                     call_rotate 1 false (Int 60)]
                    (snd (__init__ 200 (Some (Int 630)) false))).
Proof.
  apply (home_never_set_without_set_home _ 200 (Some (Int 630)) false).
  reflexivity.
Defined.

Lemma call_return_keeps_idle_enable_witness :
  idle_enable (snd (run (call (call_step 5 true (Int 60)))
                        (snd (__init__ 200 (Some (Int 630)) false)))).
Proof.
  apply (call_return_keeps_idle_enable (call_step 5 true (Int 60))
           (snd (__init__ 200 (Some (Int 630)) false))).
  - reflexivity.
  - vm_compute. reflexivity.
Defined.

Lemma step_raise_leaves_enabled_witness :
  last_enable (trace (snd (run (step 5 true (Int 0))
                               (snd (__init__ 200 (Some (Int 630)) false)))))
  = Some LOW.
Proof.
  apply (step_raise_leaves_enabled (snd (__init__ 200 (Some (Int 630)) false))
           _ 5 true (Int 0) ZeroDivisionError).
  - vm_compute. reflexivity.
  - discriminate.
Defined.

Lemma position_follows_pulses_witness :
  let c := call_go_to_position false (Int 60) (Some 20) None in
  let st := mkState (mkMotor 200 (Some (Int 630)) true (Some 150)) [] in
  position (snd (run (call c) st))
  = Some ((150 + (signed_pulses (trace (snd (run (call c) st)))
                  - signed_pulses (trace st)))
            mod steps_per_revolution (motor st)).
Proof.
  intros c st. apply (position_follows_pulses c st 150).
  - reflexivity.
  - reflexivity.
  - simpl; lia.
  - vm_compute. reflexivity.
Defined.

Lemma go_to_position_idempotent_witness :
  let st := mkState (mkMotor 200 (Some (Int 630)) true (Some 150)) [] in
  let st' := snd (run (go_to_position true (Int 60) None (Some (Int 90))) st) in
  run (go_to_position false (Int 10000) None (Some (Int 90))) st' = (Return tt, st').
Proof.
  intros st st'.
  apply (go_to_position_idempotent st st' true false (Int 60) (Int 10000)
           None (Some (Int 90))).
  - exists 150. simpl. split; [reflexivity|lia].
  - vm_compute. reflexivity.
Defined.

Lemma go_to_position_round_trip_witness :
  let st := mkState (mkMotor 200 (Some (Int 630)) true (Some 150)) [] in
  exists st1 st2,
    run (go_to_position true (Int 60) (Some 20) None) st = (Return tt, st1)
    /\ run (go_to_position true (Int 60) (Some 150) None) st1 = (Return tt, st2)
    /\ position st2 = Some 150
    /\ pulses (trace st2) = pulses (trace st) + steps_per_revolution (motor st).
Proof.
  intros st. apply (go_to_position_round_trip st true (Int 60) 150 20).
  - reflexivity.
  - simpl; lia.
  - simpl; lia.
  - lia.
  - vm_compute. reflexivity.
Defined.

Lemma go_to_position_from_home_witness :
  let st := mkState (mkMotor 200 (Some (Int 630)) true (Some 150)) [] in
  exists st',
    run (go_to_position false (Int 60) (Some 20) None)
        (snd (run set_current_position_as_home st)) = (Return tt, st')
    /\ position st' = Some 20
    /\ pulses (trace st')
       = pulses (trace st)
         + (if false then 20 else steps_per_revolution (motor st) - 20).
Proof.
  intros st. apply (go_to_position_from_home st false (Int 60) 20).
  - simpl; lia.
  - vm_compute. reflexivity.
Defined.

Lemma go_to_position_degree_in_range_witness :
  num_le (Int 0) (Float (S754_finite false 6333186975989760 (-46))) = true
  /\ num_le (Float (S754_finite false 6333186975989760 (-46))) (Int 360) = true.
Proof.
  apply (go_to_position_degree_in_range example_state
           (snd (run (go_to_position true (Int 60) None
                        (Some (Float (S754_finite false 6333186975989760 (-46)))))
                     example_state))
           true (Int 60)).
  vm_compute. reflexivity.
Defined.

Lemma go_to_position_degree_exact_witness :
  let st' := snd (run (go_to_position true (Int 60) None (Some (Int 90)))
                      example_state) in
  exists i,
    position st' = Some i
    /\ 360 * i = 90 * steps_per_revolution (motor example_state).
Proof.
  intros st'.
  apply (go_to_position_degree_exact example_state st' true (Int 60) 90).
  - exists 0. simpl. split; [reflexivity|lia].
  - reflexivity.
  - vm_compute. reflexivity.
Defined.

Lemma go_to_position_degree_zero_witness :
  let st := mkState (mkMotor 200 (Some (Int 630)) true (Some 150)) [] in
  run (go_to_position true (Int 60) None (Some (Float (S754_zero true)))) st
  = run (go_to_position true (Int 60) (Some 0) None) st.
Proof.
  intros st.
  apply (go_to_position_degree_zero st true (Int 60) (Float (S754_zero true))).
  - split; reflexivity.
  - reflexivity.
Defined.

Lemma step_negative_rpm_python_witness :
  exists d,
    calculate_delay_from_rpm (motor example_state) (Int (-60)) = Ok d
    /\ signbit d = Some true
    /\ if is_zero d
       then fst (run (step 5 true (Int (-60))) example_state) = Return tt
       else run (step 5 true (Int (-60))) example_state
            = (Raise (time_sleep_error d),
               mkState (motor example_state)
                 (trace example_state
                  ++ [GPIO_output direction_pin (if true then HIGH else LOW);
                      GPIO_output enable_pin LOW;
                      GPIO_output pulse_pin HIGH])).
Proof.
  apply (step_negative_rpm_python example_state 5 true (Int (-60))).
  - reflexivity.
  - lia.
  - split; reflexivity.
  - intros limit [= <-]. reflexivity.
Defined.
